(** * gophie: the scraping-engine core ([engine/engines.go])

    A shallow embedding of the Go package [engine]: the [Movie] and
    [SearchResult] model with its lookup helpers, the JSON rendering of a
    [Movie], the engine registry and the index-correlation helper, followed
    by the properties the specification states about them.

    Conventions of the embedding.
    - A Go [string] is a byte sequence: Rocq's [string] (a list of 8-bit
      [ascii] characters).  [==] on strings is byte equality, [String.eqb].
    - A Go [int] is a [Z]; every place where the 64-bit range matters says so.
    - A Go [error] is [option string]: [None] is [nil], [Some msg] an error
      whose [Error()] text is [msg].
    - A function returning [(T, error)] returns a pair.
    - A pointer that may be [nil] is an [option]; a call that dereferences
      [nil] ends in [Panics], [log.Fatal] ends in [Exits]. *)

From Stdlib Require Import ZArith String Ascii List Lia Bool.
From stdpp Require Import base option list strings gmap.

Set Warnings "-register-all".

Open Scope string_scope.
Open Scope list_scope.
Open Scope Z_scope.

(* ================================================================== *)
(** * Part I. The model                                                *)
(* ================================================================== *)

(** ** Go values shared by the whole package *)

(** [error]: [nil] or a value carrying a message. *)
Abbreviation error := (option string).

(** [errors.New(text)]. *)
Definition errors_New (text : string) : error := Some text.

(** How a call ends: it returns, it panics (run-time error), or the process
    is terminated by [os.Exit] (the way [log.Fatal] ends). *)
Inductive outcome (A : Type) : Type :=
| Returns (a : A)
| Panics (msg : string)
| Exits (code : Z).
Arguments Returns {A} a.
Arguments Panics {A} msg.
Arguments Exits {A} code.

Definition outcome_bind {A B} (x : outcome A) (k : A -> outcome B) : outcome B :=
  match x with
  | Returns a => k a
  | Panics msg => Panics msg
  | Exits c => Exits c
  end.

Notation "'do' x <- e ; k" := (outcome_bind e (fun x => k))
  (at level 10, x name, e at level 100, k at level 200).

(** The text of Go's nil-dereference run-time panic. *)
Definition nil_dereference : string :=
  "runtime error: invalid memory address or nil pointer dereference".

(** ** [net/url]

    [net/url] is not part of the repository.  The engine code observes a
    [*url.URL] through one operation only, its [String] method, so a URL
    value is represented by the text that [String] renders for it.  Every Go
    string is such a rendering ([url.URL{Opaque: s}.String() == s]); in
    particular the raw query of a parsed URL is rendered byte for byte. *)
Record URL : Type := mkURL { URL_text : string }.

(** The [String] method of a [*url.URL], on a possibly-nil receiver: the
    method reads the receiver's fields at once, so a nil receiver panics. *)
Definition URL_String (u : option URL) : outcome string :=
  match u with
  | Some url => Returns (URL_text url)
  | None => Panics nil_dereference
  end.

(** ** [Movie] and [SearchResult] *)

(** [type Movie struct]: field for field. *)
Record Movie : Type := mkMovie {
  Index : Z;
  Title : string;
  CoverPhotoLink : string;
  Description : string;
  Size : string;
  DownloadLink : option URL;
  Year : Z;
  IsSeries : bool;
  SDownloadLink : list (option URL);
  UploadDate : string;
  Source : string
}.

(** [Movie{}], the zero value. *)
Definition Movie_zero : Movie :=
  {| Index := 0; Title := ""; CoverPhotoLink := ""; Description := "";
     Size := ""; DownloadLink := None; Year := 0; IsSeries := false;
     SDownloadLink := []; UploadDate := ""; Source := "" |}.

(** [type SearchResult struct]. *)
Record SearchResult : Type := mkSearchResult {
  Query : string;
  Movies : list Movie
}.

(** [Titles]: the range loop appends one title per movie, in order. *)
Fixpoint Titles_loop (titles : list string) (movies : list Movie) : list string :=
  match movies with
  | [] => titles
  | movie :: rest => Titles_loop (titles ++ [Title movie]) rest
  end.

Definition Titles (s : SearchResult) : list string :=
  Titles_loop [] (Movies s).

(** The loop of [GetMovieByTitle]: [Some movie] when the body returns,
    [None] when the range is exhausted. *)
Fixpoint GetMovieByTitle_loop (movies : list Movie) (title : string) : option Movie :=
  match movies with
  | [] => None
  | movie :: rest =>
      if String.eqb (Title movie) title then Some movie
      else GetMovieByTitle_loop rest title
  end.

Definition GetMovieByTitle (s : SearchResult) (title : string) : Movie * error :=
  match GetMovieByTitle_loop (Movies s) title with
  | Some movie => (movie, None)
  | None => (Movie_zero, errors_New "Movie not Found")
  end.

(** The loop of [GetIndexFromTitle]; [index] is the range's position. *)
Fixpoint GetIndexFromTitle_loop (index : Z) (movies : list Movie) (title : string)
  : option Z :=
  match movies with
  | [] => None
  | movie :: rest =>
      if String.eqb (Title movie) title then Some index
      else GetIndexFromTitle_loop (index + 1) rest title
  end.

Definition GetIndexFromTitle (s : SearchResult) (title : string) : Z * error :=
  match GetIndexFromTitle_loop 0 (Movies s) title with
  | Some index => (index, None)
  | None => (0, errors_New "Movie not Found")
  end.

(** ** Bytes *)

(** The numeric value of a byte, and the byte of a value (mod 256, as Go's
    [byte] arithmetic wraps). *)
Definition byte (c : ascii) : Z := Z.of_N (N_of_ascii c).
Definition to_byte (z : Z) : ascii := ascii_of_N (Z.to_N (z mod 256)).

(** ** [strings.ToLower], [fmt.Errorf]

    Go's [strings.ToLower] has two paths.  A string made of ASCII bytes only
    is mapped byte by byte, ['A'..'Z'] to ['a'..'z'].  Any other string goes
    through [strings.Map(unicode.ToLower, s)], which depends on the Unicode
    tables of the Go release; that path is the parameter [unicode_lower]. *)
Definition isASCII (s : string) : bool :=
  forallb (fun c => byte c <? 128) (list_ascii_of_string s).

Definition is_upper (c : ascii) : bool := (65 <=? byte c) && (byte c <=? 90).

Definition hasUpper (s : string) : bool :=
  existsb is_upper (list_ascii_of_string s).

(** [c += 'a' - 'A'] on the bytes ['A' <= c <= 'Z']. *)
Definition lower_byte (c : ascii) : ascii :=
  if is_upper c then to_byte (byte c + (97 - 65)) else c.

Fixpoint lower_ascii (s : string) : string :=
  match s with
  | EmptyString => EmptyString
  | String c rest => String (lower_byte c) (lower_ascii rest)
  end.

Definition strings_ToLower (unicode_lower : string -> string) (s : string) : string :=
  if isASCII s then (if hasUpper s then lower_ascii s else s)
  else unicode_lower s.

(** [fmt.Sprintf] restricted to what this package formats: literal text and
    the verb [%s] applied to string operands, which prints the operand's
    bytes unchanged.  [%%] prints a percent sign; a [%s] with no operand left
    prints [%!s(MISSING)]; any other verb is outside this model and is copied
    through. *)
Fixpoint fmt_Sprintf (format : string) (args : list string) : string :=
  match format with
  | EmptyString => EmptyString
  | String "%" (String "s" rest) =>
      match args with
      | a :: args' => a +:+ fmt_Sprintf rest args'
      | [] => "%!s(MISSING)" +:+ fmt_Sprintf rest []
      end
  | String "%" (String "%" rest) => String "%" (fmt_Sprintf rest args)
  | String c rest => String c (fmt_Sprintf rest args)
  end.

(** [fmt.Errorf]: an error whose text is the formatted string. *)
Definition fmt_Errorf (format : string) (args : list string) : error :=
  Some (fmt_Sprintf format args).

(** ** The engine registry

    Go allocates: [make] and the adapter constructors return references to
    new objects.  The store maps addresses to objects, and every allocation
    takes an address that is not in use. *)

(** The concrete types that implement [Engine], one per site. *)
Inductive adapter : Type := NetNaijaEngine | FzEngine.

Definition loc : Type := nat.

(** A non-nil [Engine] interface value: its dynamic type and the pointer it
    holds.  [Engine] itself may be [nil]. *)
Record engine_ref : Type := mkEngineRef { dyn_type : adapter; ptr : loc }.
Abbreviation Engine := (option engine_ref).

(** The adapter behind an interface value: what [String()] names. *)
Definition identity (e : Engine) : option adapter := dyn_type <$> e.

Inductive object : Type :=
| EngineObj (a : adapter)
| MapObj (m : gmap string Engine).

Abbreviation store := (gmap loc object).

(** Computations that read and extend the store. *)
Definition St (A : Type) : Type := store -> A * store.

Definition St_ret {A} (a : A) : St A := fun h => (a, h).
Definition St_bind {A B} (m : St A) (k : A -> St B) : St B :=
  fun h => let '(a, h') := m h in k a h'.

Notation "x <- e ;; k" := (St_bind e (fun x => k))
  (at level 100, e at next level, k at level 200, right associativity).
Notation "e ;; k" := (St_bind e (fun _ => k))
  (at level 100, k at level 200, right associativity).

Definition alloc (o : object) : St loc :=
  fun h => let l := fresh (dom h) in (l, <[l := o]> h).

(** [make(map[string]Engine)]. *)
Definition make_map : St loc := alloc (MapObj ∅).

(** [m[k] = v], on a map that [make] returned. *)
Definition map_assign (m : loc) (k : string) (v : Engine) : St unit :=
  fun h =>
    match h !! m with
    | Some (MapObj entries) => (tt, <[m := MapObj (<[k := v]> entries)]> h)
    | _ => (tt, h)
    end.

(** [m[k]]: the zero value, a nil interface, when [k] is not a key. *)
Definition map_index (m : loc) (k : string) : St Engine :=
  fun h =>
    match h !! m with
    | Some (MapObj entries) => (default None (entries !! k), h)
    | _ => (None, h)
    end.

(** Modelled from the spec: [NewNetNaijaEngine] and [NewFzEngine] are defined
    in the adapter files of the package, which are not among the sources.
    The spec (4.3) says [GetEngines] "constructs one instance of each known
    adapter": a constructor allocates a new adapter object and returns the
    pointer to it, as a non-nil [Engine]. *)
Definition NewNetNaijaEngine : St Engine :=
  l <- alloc (EngineObj NetNaijaEngine) ;;
  St_ret (Some (mkEngineRef NetNaijaEngine l)).

(** Modelled from the spec: the constructor of the other adapter, likewise. *)
Definition NewFzEngine : St Engine :=
  l <- alloc (EngineObj FzEngine) ;;
  St_ret (Some (mkEngineRef FzEngine l)).

(** [GetEngines]. *)
Definition GetEngines : St loc :=
  engines <- make_map ;;
  e1 <- NewNetNaijaEngine ;;
  map_assign engines "netnaija" e1 ;;
  e2 <- NewFzEngine ;;
  map_assign engines "fzmovies" e2 ;;
  St_ret engines.

(** [GetEngine]. *)
Definition GetEngine (unicode_lower : string -> string) (engine : string)
  : St (Engine * error) :=
  engines <- GetEngines ;;
  e <- map_index engines (strings_ToLower unicode_lower engine) ;;
  match e with
  | None => St_ret (None, fmt_Errorf "Engine %s Does not exist" [engine])
  | Some _ => St_ret (e, None)
  end.

(** ** [strconv.Atoi]

    Go's [strconv.Atoi] for a 64-bit [int], path for path: the fast loop for
    strings shorter than 19 bytes, [ParseInt]/[ParseUint] with their
    overflow cut-offs for the rest. *)

Definition intSize : Z := 64.

Inductive NumErrorKind : Type := ErrSyntax | ErrRange.

(** [*strconv.NumError]. *)
Record NumError : Type := mkNumError {
  Func : string;
  Num : string;
  Err : NumErrorKind
}.

Definition syntaxError (fn str : string) : NumError := mkNumError fn str ErrSyntax.
Definition rangeError (fn str : string) : NumError := mkNumError fn str ErrRange.

(** The fast path's loop: [ch -= '0'] is byte arithmetic, so a byte below
    ['0'] wraps to a value above 9.  At most 18 digits are read, so
    [n*10 + int(ch)] stays below [10^18] and never leaves the [int] range. *)
Fixpoint Atoi_fast_loop (n : Z) (s : string) : option Z :=
  match s with
  | EmptyString => Some n
  | String ch rest =>
      let ch' := (byte ch - 48) mod 256 in
      if 9 <? ch' then None else Atoi_fast_loop (n * 10 + ch') rest
  end.

Definition maxUint64 : Z := 2 ^ 64 - 1.

(** The loop of [ParseUint(s, 10, 64)]; [n] is a [uint64]. *)
Fixpoint ParseUint_loop (n : Z) (s : string) : Z * option NumErrorKind :=
  match s with
  | EmptyString => (n, None)
  | String c rest =>
      if (48 <=? byte c) && (byte c <=? 57) then
        let d := byte c - 48 in
        if maxUint64 / 10 + 1 <=? n then (maxUint64, Some ErrRange)
        else
          let n10 := n * 10 in
          let n1 := (n10 + d) mod 2 ^ 64 in
          if (n1 <? n10) || (maxUint64 <? n1) then (maxUint64, Some ErrRange)
          else ParseUint_loop n1 rest
      else (0, Some ErrSyntax)
  end.

Definition ParseUint (s : string) : Z * option NumErrorKind :=
  match s with
  | EmptyString => (0, Some ErrSyntax)
  | _ => ParseUint_loop 0 s
  end.

(** [ParseInt(s, 10, 0)]. *)
Definition ParseInt (s : string) : Z * option NumError :=
  match s with
  | EmptyString => (0, Some (syntaxError "ParseInt" s))
  | String c0 rest =>
      let neg := Ascii.eqb c0 "-" in
      let digits := if Ascii.eqb c0 "+" || neg then rest else s in
      match ParseUint digits with
      | (_, Some ErrSyntax) => (0, Some (syntaxError "ParseInt" s))
      | (un, _) =>
          let cutoff := 2 ^ (intSize - 1) in
          if negb neg && (cutoff <=? un) then (cutoff - 1, Some (rangeError "ParseInt" s))
          else if neg && (cutoff <? un) then (- cutoff, Some (rangeError "ParseInt" s))
          else (if neg then - un else un, None)
      end
  end.

Definition Atoi (s : string) : Z * option NumError :=
  let sLen := Z.of_nat (String.length s) in
  if (0 <? sLen) && (sLen <? 19) then
    match s with
    | EmptyString => (0, Some (syntaxError "Atoi" s))
    | String c0 rest =>
        let signed := Ascii.eqb c0 "-" || Ascii.eqb c0 "+" in
        let digits := if signed then rest else s in
        if signed && (String.length digits =? 0)%nat then (0, Some (syntaxError "Atoi" s))
        else
          match Atoi_fast_loop 0 digits with
          | None => (0, Some (syntaxError "Atoi" s))
          | Some n => (if Ascii.eqb c0 "-" then - n else n, None)
          end
    end
  else
    match ParseInt s with
    | (i64, Some nerr) => (i64, Some (mkNumError "Atoi" (Num nerr) (Err nerr)))
    | (i64, None) => (i64, None)
    end.

(** [strconv.Itoa] (and [strconv.AppendInt(dst, n, 10)], which the JSON
    encoder uses for integers): a minus sign for a negative number, then the
    decimal digits, most significant first, with no leading zero.
    [FormatUint_loop] produces the digits from the least significant one,
    as Go's formatter does; the fuel bounds the number of digits. *)
Fixpoint FormatUint_loop (fuel : nat) (n : Z) (acc : string) : string :=
  match fuel with
  | O => acc
  | S fuel' =>
      let acc' := String (to_byte (48 + n mod 10)) acc in
      if n <? 10 then acc' else FormatUint_loop fuel' (n / 10) acc'
  end.

Definition FormatUint (n : Z) : string :=
  FormatUint_loop (S (Z.to_nat (Z.log2 n))) n EmptyString.

Definition strconv_Itoa (i : Z) : string :=
  if i <? 0 then String "-" (FormatUint (- i)) else FormatUint i.

(** ** The index-correlation helper *)

(** [colly.Context], as this package uses it: string values under string
    keys.  [Get] returns the empty string for a key that is not there. *)
Record Context : Type := mkContext { contextMap : gmap string string }.

Definition Context_Get (c : Context) (key : string) : string :=
  default "" (contextMap c !! key).

(** [colly.Request], of which the helper reads [Ctx] only. *)
Record Request : Type := mkRequest { Ctx : Context }.

(** [log.Fatal]: the entry is logged and the process exits with status 1. *)
Definition log_Fatal {A} (err : NumError) : outcome A := Exits 1.

(** [getMovieIndexFromCtx]. *)
Definition getMovieIndexFromCtx (r : Request) : outcome Z :=
  let '(movieIndex, err) := Atoi (Context_Get (Ctx r) "movieIndex") in
  match err with
  | Some e => log_Fatal e
  | None => Returns movieIndex
  end.

(** What it means for a string to encode an integer in decimal: an optional
    sign and at least one digit.  [digits_value s n]: [s] is a non-empty run
    of decimal digits whose value is [n]. *)
Inductive digits_value : string -> Z -> Prop :=
| digits_one c :
    48 <= byte c <= 57 -> digits_value (String c EmptyString) (byte c - 48)
| digits_snoc s n c :
    digits_value s n -> 48 <= byte c <= 57 ->
    digits_value (s +:+ String c EmptyString) (10 * n + (byte c - 48)).

Inductive encodes_int : string -> Z -> Prop :=
| encodes_plain s n : digits_value s n -> encodes_int s n
| encodes_plus s n : digits_value s n -> encodes_int (String "+" s) n
| encodes_minus s n : digits_value s n -> encodes_int (String "-" s) (- n).


(** ** [unicode/utf8], [unicode/utf16] *)

Definition RuneError : Z := 65533.   (* U+FFFD *)
Definition MaxRune : Z := 1114111.   (* U+10FFFF *)

Fixpoint string_drop (n : nat) (s : string) : string :=
  match n, s with
  | S n', String _ rest => string_drop n' rest
  | _, _ => s
  end.

Fixpoint string_take (n : nat) (s : string) : string :=
  match n, s with
  | S n', String c rest => String c (string_take n' rest)
  | _, _ => EmptyString
  end.

(** A continuation byte, [10xxxxxx]. *)
Definition is_cont (b : Z) : bool := (128 <=? b) && (b <=? 191).

(** [utf8.DecodeRuneInString]: the first rune of [s] and its width in
    bytes.  An empty string gives [(RuneError, 0)], an encoding that is not
    valid UTF-8 gives [(RuneError, 1)].  The second byte's accepted range
    depends on the first, which rules out over-long forms, surrogates and
    values above [MaxRune] (Go's [first] and [acceptRanges] tables). *)
Definition utf8_DecodeRune (s : string) : Z * nat :=
  match s with
  | EmptyString => (RuneError, 0%nat)
  | String c0 s1 =>
      let b0 := byte c0 in
      if b0 <? 128 then (b0, 1%nat)
      else if (194 <=? b0) && (b0 <=? 223) then
        match s1 with
        | String c1 _ =>
            let b1 := byte c1 in
            if is_cont b1
            then (Z.lor (Z.shiftl (Z.land b0 31) 6) (Z.land b1 63), 2%nat)
            else (RuneError, 1%nat)
        | _ => (RuneError, 1%nat)
        end
      else if (224 <=? b0) && (b0 <=? 239) then
        match s1 with
        | String c1 (String c2 _) =>
            let b1 := byte c1 in
            let b2 := byte c2 in
            let lo := if b0 =? 224 then 160 else 128 in
            let hi := if b0 =? 237 then 159 else 191 in
            if (lo <=? b1) && (b1 <=? hi) && is_cont b2
            then (Z.lor (Z.lor (Z.shiftl (Z.land b0 15) 12)
                               (Z.shiftl (Z.land b1 63) 6))
                        (Z.land b2 63), 3%nat)
            else (RuneError, 1%nat)
        | _ => (RuneError, 1%nat)
        end
      else if (240 <=? b0) && (b0 <=? 244) then
        match s1 with
        | String c1 (String c2 (String c3 _)) =>
            let b1 := byte c1 in
            let b2 := byte c2 in
            let b3 := byte c3 in
            let lo := if b0 =? 240 then 144 else 128 in
            let hi := if b0 =? 244 then 143 else 191 in
            if (lo <=? b1) && (b1 <=? hi) && is_cont b2 && is_cont b3
            then (Z.lor (Z.lor (Z.lor (Z.shiftl (Z.land b0 7) 18)
                                      (Z.shiftl (Z.land b1 63) 12))
                               (Z.shiftl (Z.land b2 63) 6))
                        (Z.land b3 63), 4%nat)
            else (RuneError, 1%nat)
        | _ => (RuneError, 1%nat)
        end
      else (RuneError, 1%nat)
  end.

(** The three- and four-byte forms of [utf8.EncodeRune]. *)
Definition encode3 (r : Z) : string :=
  String (to_byte (Z.lor 224 (Z.shiftr r 12 mod 256)))
    (String (to_byte (Z.lor 128 (Z.land (Z.shiftr r 6 mod 256) 63)))
       (String (to_byte (Z.lor 128 (Z.land (r mod 256) 63))) EmptyString)).

Definition encode4 (r : Z) : string :=
  String (to_byte (Z.lor 240 (Z.shiftr r 18 mod 256)))
    (String (to_byte (Z.lor 128 (Z.land (Z.shiftr r 12 mod 256) 63)))
       (String (to_byte (Z.lor 128 (Z.land (Z.shiftr r 6 mod 256) 63)))
          (String (to_byte (Z.lor 128 (Z.land (r mod 256) 63))) EmptyString))).

(** [utf8.EncodeRune]: the switch is on [uint32(r)]; a surrogate or a value
    above [MaxRune] is written as [RuneError]. *)
Definition utf8_EncodeRune (r : Z) : string :=
  let i := r mod 2 ^ 32 in
  if i <=? 127 then String (to_byte r) EmptyString
  else if i <=? 2047 then
    String (to_byte (Z.lor 192 (Z.shiftr r 6 mod 256)))
      (String (to_byte (Z.lor 128 (Z.land (r mod 256) 63))) EmptyString)
  else if (MaxRune <? i) || ((55296 <=? i) && (i <=? 57343)) then encode3 RuneError
  else if i <=? 65535 then encode3 r
  else encode4 r.

(** [utf8.ValidString]: every rune decodes, none as an invalid byte. *)
Fixpoint ValidString_loop (fuel : nat) (s : string) : bool :=
  match fuel, s with
  | _, EmptyString => true
  | O, _ => false
  | S fuel', _ =>
      let '(r, size) := utf8_DecodeRune s in
      if (r =? RuneError) && (size =? 1)%nat then false
      else ValidString_loop fuel' (string_drop size s)
  end.

Definition utf8_ValidString (s : string) : bool :=
  ValidString_loop (String.length s) s.

Definition utf16_IsSurrogate (r : Z) : bool := (55296 <=? r) && (r <? 57344).

(** [utf16.DecodeRune]: the code point of a surrogate pair, [RuneError]
    when the two values are not a pair. *)
Definition utf16_DecodeRune (r1 r2 : Z) : Z :=
  if (55296 <=? r1) && (r1 <? 56320) && (56320 <=? r2) && (r2 <? 57344)
  then Z.lor (Z.shiftl (r1 - 55296) 10) (r2 - 56320) + 65536
  else RuneError.

(** ** [encoding/json]

    [json.Marshal] of the values this package hands to it, in two steps: the
    JSON value the struct encoder builds, and its compact text.  The text of
    a string follows the encoder's [appendString] with HTML escaping on, as
    [json.Marshal] sets it; [json_unquote] is the decoder's [unquote]. *)

Inductive JSON : Type :=
| JNull
| JBool (b : bool)
| JNumber (n : Z)
| JString (s : string)
| JArray (items : list JSON)
| JObject (fields : list (string * JSON)).

(** The double quote, code 34. *)
Definition dquote : ascii := ascii_of_nat 34.

Definition hex (n : Z) : ascii :=
  match String.get (Z.to_nat n) "0123456789abcdef" with
  | Some c => c
  | None => "0"%char
  end.

(** [htmlSafeSet], on the ASCII bytes: printable and none of the double
    quote, the backslash, [<], [>] and [&]. *)
Definition htmlSafe (b : Z) : bool :=
  (32 <=? b) && negb ((b =? 34) || (b =? 92) || (b =? 60) || (b =? 62) || (b =? 38)).

(** One round of the loop of [appendString]: what is written for the rune at
    the head of [s], and how many bytes of [s] it covers. *)
Definition appendString_step (s : string) : string * nat :=
  match s with
  | EmptyString => (EmptyString, 0%nat)
  | String c _ =>
      let b := byte c in
      if b <? 128 then
        if htmlSafe b then (String c EmptyString, 1%nat)
        else if (b =? 92) || (b =? 34) then (String "\" (String c EmptyString), 1%nat)
        else if b =? 8 then ("\b", 1%nat)
        else if b =? 12 then ("\f", 1%nat)
        else if b =? 10 then ("\n", 1%nat)
        else if b =? 13 then ("\r", 1%nat)
        else if b =? 9 then ("\t", 1%nat)
        else ("\u00" +:+ String (hex (Z.shiftr b 4)) (String (hex (Z.land b 15)) EmptyString),
              1%nat)
      else
        let '(r, size) := utf8_DecodeRune (string_take 4 s) in
        if (r =? RuneError) && (size =? 1)%nat then ("\ufffd", 1%nat)
        else if (r =? 8232) || (r =? 8233)
        then ("\u202" +:+ String (hex (Z.land r 15)) EmptyString, size)
        else (string_take size s, size)
  end.

Fixpoint appendString_loop (fuel : nat) (s : string) : string :=
  match fuel, s with
  | _, EmptyString => EmptyString
  | O, _ => EmptyString
  | S fuel', _ =>
      let '(out, n) := appendString_step s in
      out +:+ appendString_loop fuel' (string_drop n s)
  end.

(** The JSON text of a Go string, quotes included. *)
Definition json_appendString (s : string) : string :=
  String dquote (appendString_loop (String.length s) s +:+ String dquote EmptyString).

Fixpoint join (sep : string) (parts : list string) : string :=
  match parts with
  | [] => EmptyString
  | [p] => p
  | p :: rest => p +:+ sep +:+ join sep rest
  end.

(** The compact text of a JSON value. *)
Fixpoint json_encode (j : JSON) : string :=
  match j with
  | JNull => "null"
  | JBool b => if b then "true" else "false"
  | JNumber n => strconv_Itoa n
  | JString s => json_appendString s
  | JArray items => "[" +:+ join "," (map json_encode items) +:+ "]"
  | JObject fields =>
      "{" +:+ join "," (map (fun kv => json_appendString (fst kv) +:+ ":"
                                          +:+ json_encode (snd kv)) fields) +:+ "}"
  end.

(** The value of a hexadecimal digit. *)
Definition hexval (c : ascii) : option Z :=
  let b := byte c in
  if (48 <=? b) && (b <=? 57) then Some (b - 48)
  else if (97 <=? b) && (b <=? 102) then Some (b - 97 + 10)
  else if (65 <=? b) && (b <=? 70) then Some (b - 65 + 10)
  else None.

(** [getu4]: the value of the escape [\uXXXX] at the head of [s], or -1. *)
Definition getu4 (s : string) : Z :=
  match s with
  | String "\" (String "u" (String h1 (String h2 (String h3 (String h4 _))))) =>
      match hexval h1, hexval h2, hexval h3, hexval h4 with
      | Some a, Some b, Some c, Some d => ((a * 16 + b) * 16 + c) * 16 + d
      | _, _, _, _ => -1
      end
  | _ => -1
  end.

(** One round of the loop of [unquote]: the bytes written and the number of
    bytes read, or [None] where the decoder rejects the literal. *)
Definition unquote_step (s : string) : option (string * nat) :=
  match s with
  | EmptyString => None
  | String c rest =>
      let b := byte c in
      if b =? 92 then
        match rest with
        | EmptyString => None
        | String e _ =>
            let x := byte e in
            if (x =? 34) || (x =? 92) || (x =? 47) || (x =? 39)
            then Some (String e EmptyString, 2%nat)
            else if x =? 98 then Some (String (to_byte 8) EmptyString, 2%nat)
            else if x =? 102 then Some (String (to_byte 12) EmptyString, 2%nat)
            else if x =? 110 then Some (String (to_byte 10) EmptyString, 2%nat)
            else if x =? 114 then Some (String (to_byte 13) EmptyString, 2%nat)
            else if x =? 116 then Some (String (to_byte 9) EmptyString, 2%nat)
            else if x =? 117 then
              let rr := getu4 s in
              if rr <? 0 then None
              else if utf16_IsSurrogate rr then
                let dec := utf16_DecodeRune rr (getu4 (string_drop 6 s)) in
                if dec =? RuneError then Some (utf8_EncodeRune RuneError, 6%nat)
                else Some (utf8_EncodeRune dec, 12%nat)
              else Some (utf8_EncodeRune rr, 6%nat)
            else None
        end
      else if (b =? 34) || (b <? 32) then None
      else if b <? 128 then Some (String c EmptyString, 1%nat)
      else
        let '(rr, size) := utf8_DecodeRune s in
        Some (utf8_EncodeRune rr, size)
  end.

Fixpoint unquote_loop (fuel : nat) (s : string) : option string :=
  match fuel, s with
  | _, EmptyString => Some EmptyString
  | O, _ => None
  | S fuel', _ =>
      match unquote_step s with
      | None => None
      | Some (out, n) =>
          match unquote_loop fuel' (string_drop n s) with
          | None => None
          | Some rest => Some (out +:+ rest)
          end
      end
  end.

(** The string without its last byte, and that byte. *)
Fixpoint split_last (s : string) : option (string * ascii) :=
  match s with
  | EmptyString => None
  | String c EmptyString => Some (EmptyString, c)
  | String c rest =>
      match split_last rest with
      | Some (init, l) => Some (String c init, l)
      | None => None
      end
  end.

(** [unquote]: the Go string a JSON string literal stands for. *)
Definition json_unquote (lit : string) : option string :=
  match lit with
  | String q body =>
      match split_last body with
      | Some (inner, q') =>
          if Ascii.eqb q dquote && Ascii.eqb q' dquote
          then unquote_loop (String.length inner) inner
          else None
      | None => None
      end
  | EmptyString => None
  end.

(** ** [Movie.MarshalJSON] *)

(** A Go slice as the encoder sees it: [nil] or a sequence. *)
Definition go_append {A : Type} (s : option (list A)) (x : A) : option (list A) :=
  Some (default [] s ++ [x]).

(** [type MovieJSON struct]: the embedded [Movie] and the two fields that
    shadow its [DownloadLink] and [SDownloadLink]. *)
Record MovieJSON : Type := mkMovieJSON {
  MovieJSON_Movie : Movie;
  MovieJSON_DownloadLink : string;
  MovieJSON_SDownloadLink : option (list string)
}.

(** The JSON value [json.Marshal] builds for a [MovieJSON] passed by value.
    The fields of the embedded [Movie] are promoted and come first, in
    declaration order; its [DownloadLink] and [SDownloadLink] are hidden by
    the fields of the same name declared in [MovieJSON] itself, which the
    encoder prefers as the less nested ones.  No field has a tag, so none is
    ever left out, and a nil slice is written as [null]. *)
Definition json_of_MovieJSON (v : MovieJSON) : JSON :=
  let m := MovieJSON_Movie v in
  JObject
    [ ("Index", JNumber (Index m));
      ("Title", JString (Title m));
      ("CoverPhotoLink", JString (CoverPhotoLink m));
      ("Description", JString (Description m));
      ("Size", JString (Size m));
      ("Year", JNumber (Year m));
      ("IsSeries", JBool (IsSeries m));
      ("UploadDate", JString (UploadDate m));
      ("Source", JString (Source m));
      ("DownloadLink", JString (MovieJSON_DownloadLink v));
      ("SDownloadLink",
        match MovieJSON_SDownloadLink v with
        | None => JNull
        | Some links => JArray (map JString links)
        end) ].

(** [json.Marshal(movie)]: no value of this type makes the encoder fail. *)
Definition json_Marshal_MovieJSON (v : MovieJSON) : string * error :=
  (json_encode (json_of_MovieJSON v), None).

(** The range loop of [MarshalJSON] over [m.SDownloadLink]. *)
Fixpoint MarshalJSON_loop (sDownloadLink : option (list string))
    (links : list (option URL)) : outcome (option (list string)) :=
  match links with
  | [] => Returns sDownloadLink
  | link :: rest =>
      do str <- URL_String link;
      MarshalJSON_loop (go_append sDownloadLink str) rest
  end.

(** [(m *Movie) MarshalJSON]. *)
Definition MarshalJSON (m : Movie) : outcome (string * error) :=
  do sDownloadLink <- MarshalJSON_loop None (SDownloadLink m);
  do downloadLink <- URL_String (DownloadLink m);
  let movie := mkMovieJSON m downloadLink sDownloadLink in
  Returns (json_Marshal_MovieJSON movie).

(** The member of an object under a name, the first one if the name is
    repeated. *)
Definition json_field (name : string) (j : JSON) : option JSON :=
  match j with
  | JObject fields => snd <$> List.find (fun kv => String.eqb (fst kv) name) fields
  | _ => None
  end.

(** ** Notions the statements use *)

(** The first position at which [title] occurs. *)
Definition first_match (movies : list Movie) (title : string) (i : nat) (m : Movie) : Prop :=
  movies !! i = Some m /\ Title m = title
  /\ forall (j : nat) (m' : Movie), (j < i)%nat -> movies !! j = Some m' -> Title m' <> title.

Definition no_match (movies : list Movie) (title : string) : Prop :=
  forall (i : nat) (m : Movie), movies !! i = Some m -> Title m <> title.

(** [d] is [c] up to the case of an ASCII letter. *)
Definition case_variant (c d : ascii) : Prop :=
  d = c
  \/ (65 <= byte d <= 90 /\ byte c = byte d + 32)
  \/ (65 <= byte c <= 90 /\ byte d = byte c + 32).

(** [s'] is a casing of [s]: the same letters, each in either case. *)
Inductive casing : string -> string -> Prop :=
| casing_nil : casing EmptyString EmptyString
| casing_cons c d s s' :
    case_variant c d -> casing s s' -> casing (String c s) (String d s').

(** A string of lower-case ASCII letters. *)
Definition lower_letters (s : string) : bool :=
  forallb (fun c => (97 <=? byte c) && (byte c <=? 122)) (list_ascii_of_string s).

(** What one call of [GetEngines] does to the store [h]: it takes three
    addresses that were free, two for the adapters and one for the map, and
    leaves everything else as it was. *)
Definition builds_registry (h : store) (m : loc) (h' : store) : Prop :=
  exists p q : loc,
    h !! m = None /\ h !! p = None /\ h !! q = None
    /\ m <> p /\ m <> q /\ p <> q
    /\ h' = <[m := MapObj (<["fzmovies" := Some (mkEngineRef FzEngine q)]>
                            (<["netnaija" := Some (mkEngineRef NetNaijaEngine p)]> ∅))]>
              (<[q := EngineObj FzEngine]> (<[p := EngineObj NetNaijaEngine]> h)).

(** The map a call of [GetEngines] returns, read back from the store. *)
Definition registry_of (h : store) : gmap string Engine :=
  let '(m, h') := GetEngines h in
  match h' !! m with
  | Some (MapObj entries) => entries
  | _ => ∅
  end.

Definition registered (name : string) : Prop :=
  exists h : store, name ∈ dom (registry_of h).

(** One round of the loop of [ParseUint], on the accumulator [n] and the
    byte [c]. *)
Definition ParseUint_step (n : Z) (c : ascii) : Z * option NumErrorKind :=
  ParseUint_loop n (String c EmptyString).

(** The slice [MarshalJSON] builds from the links [us], all non-nil: it stays
    [nil] when there is none. *)
Definition rendered_links (us : list URL) : option (list string) :=
  match us with
  | [] => None
  | _ => Some (URL_text <$> us)
  end.

(** The [MovieJSON] value [MarshalJSON] hands to [json.Marshal] for a movie
    whose link is [u] and whose series links are [us]. *)
Definition MovieJSON_of (m : Movie) (u : URL) (us : list URL) : MovieJSON :=
  mkMovieJSON m (URL_text u) (rendered_links us).

(** The text of the document [MarshalJSON] returns, cut in two: the nine
    scalar members, and the two link members given the text of their
    values. *)
Definition member (name value : string) : string :=
  json_appendString name +:+ ":" +:+ value.

Definition scalars_text (m : Movie) : string :=
  "{" +:+ member "Index" (strconv_Itoa (Index m)) +:+ ","
  +:+ member "Title" (json_appendString (Title m)) +:+ ","
  +:+ member "CoverPhotoLink" (json_appendString (CoverPhotoLink m)) +:+ ","
  +:+ member "Description" (json_appendString (Description m)) +:+ ","
  +:+ member "Size" (json_appendString (Size m)) +:+ ","
  +:+ member "Year" (strconv_Itoa (Year m)) +:+ ","
  +:+ member "IsSeries" (if IsSeries m then "true" else "false") +:+ ","
  +:+ member "UploadDate" (json_appendString (UploadDate m)) +:+ ","
  +:+ member "Source" (json_appendString (Source m)) +:+ ",".

Definition array_text (items : list string) : string :=
  "[" +:+ join "," items +:+ "]".

Definition links_text (link : string) (series : string) : string :=
  member "DownloadLink" link +:+ "," +:+ member "SDownloadLink" series +:+ "}".

(** [text] ends in [suffix]. *)
Definition ends_with (suffix text : string) : Prop :=
  string_drop (String.length text - String.length suffix) text = suffix.

(** ** Sample values *)

(** A film, not a series, as an adapter returns it after scraping: one
    download link and no series links. *)
Definition sample_film : Movie :=
  {| Index := 0; Title := "The Matrix"; CoverPhotoLink := "";
     Description := ""; Size := "700MB";
     DownloadLink := Some (mkURL "http://example.com/the-matrix.mp4");
     Year := 1999; IsSeries := false; SDownloadLink := [];
     UploadDate := ""; Source := "netnaija" |}.

(** A series with two episode links. *)
Definition sample_series : Movie :=
  {| Index := 1; Title := "Dark"; CoverPhotoLink := "";
     Description := ""; Size := "";
     DownloadLink := Some (mkURL "http://example.com/dark?s=1&e=1");
     Year := 2017; IsSeries := true;
     SDownloadLink := [Some (mkURL "http://example.com/dark?s=1&e=1");
                       Some (mkURL "http://example.com/dark?s=1&e=2")];
     UploadDate := ""; Source := "fzmovies" |}.

(** A link whose query holds the byte 0xFF, as [url.Parse] accepts it from
    a page encoded in Latin-1 and as [String] renders it back: the text is
    not valid UTF-8. *)
Definition latin1_link : URL :=
  mkURL ("http://example.com/get?name=" +:+ String (ascii_of_nat 255) EmptyString).

Definition sample_latin1 : Movie :=
  {| Index := 0; Title := "Amelie"; CoverPhotoLink := "";
     Description := ""; Size := "";
     DownloadLink := Some latin1_link;
     Year := 2001; IsSeries := true; SDownloadLink := [Some latin1_link];
     UploadDate := ""; Source := "netnaija" |}.

(** ** [Props] and its JSON rendering *)

(** [type Props struct].  The field [Description] is [Props_Description]
    here, as [Movie] has a field of that name. *)
Record Props : Type := mkProps {
  Name : string;
  BaseURL : option URL;
  SearchURL : option URL;
  ListURL : option URL;
  Props_Description : string
}.

(** [type PropsJSON struct]: the embedded [Props] and the three fields that
    shadow its locators. *)
Record PropsJSON : Type := mkPropsJSON {
  PropsJSON_Props : Props;
  PropsJSON_BaseURL : string;
  PropsJSON_SearchURL : string;
  PropsJSON_ListURL : string
}.

(** The JSON value [json.Marshal] builds for a [PropsJSON] passed by value:
    the promoted fields of the embedded [Props] that are not shadowed, then
    the three fields of [PropsJSON] itself. *)
Definition json_of_PropsJSON (v : PropsJSON) : JSON :=
  let p := PropsJSON_Props v in
  JObject
    [ ("Name", JString (Name p));
      ("Description", JString (Props_Description p));
      ("BaseURL", JString (PropsJSON_BaseURL v));
      ("SearchURL", JString (PropsJSON_SearchURL v));
      ("ListURL", JString (PropsJSON_ListURL v)) ].

(** [(p *Props) MarshalJSON]: the struct literal evaluates the three
    [String] calls in the order of its fields. *)
Definition Props_MarshalJSON (p : Props) : outcome (string * error) :=
  do baseURL <- URL_String (BaseURL p);
  do searchURL <- URL_String (SearchURL p);
  do listURL <- URL_String (ListURL p);
  let props := mkPropsJSON p baseURL searchURL listURL in
  Returns (json_encode (json_of_PropsJSON props), None).

(** The text of the document [Props.MarshalJSON] returns, given the text of
    the three locator values. *)
Definition props_text (p : Props) (base search list : string) : string :=
  "{" +:+ member "Name" (json_appendString (Name p)) +:+ ","
  +:+ member "Description" (json_appendString (Props_Description p)) +:+ ","
  +:+ member "BaseURL" base +:+ ","
  +:+ member "SearchURL" search +:+ ","
  +:+ member "ListURL" list +:+ "}".

(** ** [Movie.String] *)

(** The operands [fmt.Sprintf] receives in this package: strings and ints. *)
Inductive operand : Type :=
| OString (s : string)
| OInt (n : Z).

Definition operand_type (o : operand) : string :=
  match o with
  | OString _ => "string"
  | OInt _ => "int"
  end.

(** An operand under [%v]. *)
Definition operand_value (o : operand) : string :=
  match o with
  | OString s => s
  | OInt n => strconv_Itoa n
  end.

(** One verb applied to one operand, for the verbs [v], [s] and [d] (others
    are outside this model): [%v] prints either operand, [%s] a string,
    [%d] an int, and a verb that does not fit its operand prints
    [%!verb(type=value)]. *)
Definition format_verb (verb : ascii) (o : operand) : string :=
  match o with
  | OString s =>
      if Ascii.eqb verb "v" || Ascii.eqb verb "s" then s
      else "%!" +:+ String verb ("(string=" +:+ s +:+ ")")
  | OInt n =>
      if Ascii.eqb verb "v" || Ascii.eqb verb "d" then strconv_Itoa n
      else "%!" +:+ String verb ("(int=" +:+ strconv_Itoa n +:+ ")")
  end.

(** What [Sprintf] appends when operands are left over. *)
Definition fmt_extra (args : list operand) : string :=
  match args with
  | [] => EmptyString
  | _ => "%!(EXTRA "
         +:+ join ", " (map (fun o => operand_type o +:+ "=" +:+ operand_value o) args)
         +:+ ")"
  end.

(** [fmt.Sprintf] on string and int operands. *)
Fixpoint fmt_Sprintf_operands (format : string) (args : list operand) : string :=
  match format with
  | EmptyString => fmt_extra args
  | String "%" EmptyString => "%!(NOVERB)" +:+ fmt_extra args
  | String "%" (String "%" rest) => String "%" (fmt_Sprintf_operands rest args)
  | String "%" (String verb rest) =>
      match args with
      | o :: args' => format_verb verb o +:+ fmt_Sprintf_operands rest args'
      | [] => "%!" +:+ String verb ("(MISSING)" +:+ fmt_Sprintf_operands rest [])
      end
  | String c rest => String c (fmt_Sprintf_operands rest args)
  end.

(** [(m *Movie) String]. *)
Definition Movie_String (m : Movie) : string :=
  fmt_Sprintf_operands "%s (%v)" [OString (Title m); OInt (Year m)].

(** [c] occurs in [s]. *)
Fixpoint has_char (c : ascii) (s : string) : bool :=
  match s with
  | EmptyString => false
  | String x rest => Ascii.eqb x c || has_char c rest
  end.

(** ** More sample values *)

(** The properties of an engine whose three locators are set. *)
Definition sample_props : Props :=
  {| Name := "Sample";
     BaseURL := Some (mkURL "http://example.com");
     SearchURL := Some (mkURL "http://example.com/search?q=a&b");
     ListURL := Some (mkURL "http://example.com/movies/");
     Props_Description := "A <sample> site" |}.

(** A result in which two movies share a title. *)
Definition sample_result : SearchResult :=
  mkSearchResult "dark" [sample_film; sample_series; sample_series].
(* ================================================================== *)
(** * Part II. Properties                                              *)
(* ================================================================== *)

(** ** [SearchResult] lookups *)

Lemma Titles_loop_spec movies : forall titles,
  Titles_loop titles movies = titles ++ map Title movies.
Proof.
  induction movies as [|movie rest IH]; intros titles; simpl.
  - by rewrite app_nil_r.
  - rewrite IH. by rewrite <- app_assoc.
Qed.

Lemma Titles_map s : Titles s = map Title (Movies s).
Proof. unfold Titles. by rewrite Titles_loop_spec. Qed.

(** C4. [Titles] has one entry per movie, entry [i] is the title of movie
    [i], and an empty movie sequence gives an empty list of titles (the
    function has no error result at all). *)
Theorem Titles_mirrors_Movies (s : SearchResult) :
  length (Titles s) = length (Movies s)
  /\ (forall (i : nat) (m : Movie),
        Movies s !! i = Some m -> Titles s !! i = Some (Title m))
  /\ (Movies s = [] -> Titles s = []).
Proof.
  rewrite Titles_map. split; [|split].
  - apply length_map.
  - intros i m Hi. change (map Title (Movies s)) with (Title <$> Movies s).
    by rewrite list_lookup_fmap, Hi.
  - by intros ->.
Qed.


Lemma first_match_unique movies title i m i' m' :
  first_match movies title i m -> first_match movies title i' m' -> i = i' /\ m = m'.
Proof.
  intros (Hi & Ht & Hmin) (Hi' & Ht' & Hmin').
  assert (i = i') as ->.
  { destruct (Nat.lt_trichotomy i i') as [Hlt|[->|Hlt]]; [|done|].
    - by destruct (Hmin' _ _ Hlt Hi).
    - by destruct (Hmin _ _ Hlt Hi'). }
  split; [done|congruence].
Qed.

Lemma GetMovieByTitle_loop_Some movies title m :
  GetMovieByTitle_loop movies title = Some m <-> exists i, first_match movies title i m.
Proof.
  induction movies as [|movie rest IH]; simpl.
  - split; [done|]. by intros (i & Hi & _).
  - destruct (String.eqb_spec (Title movie) title) as [Heq|Hne].
    + split.
      * intros [= <-]. exists 0%nat. repeat split; [done|]. intros j m' Hj. lia.
      * intros (i & Hfm).
        assert (first_match (movie :: rest) title 0 movie) as H0.
        { repeat split; [done|]. intros j m' Hj. lia. }
        destruct (first_match_unique _ _ _ _ _ _ Hfm H0) as [_ ->]. done.
    + rewrite IH. split.
      * intros (i & Hi & Ht & Hmin). exists (S i). repeat split; [done..|].
        intros [|j] m' Hj Hm'; simpl in Hm'; [congruence|].
        apply (Hmin j); [lia|done].
      * intros ([|i] & Hi & Ht & Hmin); simpl in Hi; [congruence|].
        exists i. repeat split; [done..|]. intros j m' Hj Hm'.
        apply (Hmin (S j)); [lia|done].
Qed.

Lemma GetMovieByTitle_loop_None movies title :
  GetMovieByTitle_loop movies title = None <-> no_match movies title.
Proof.
  induction movies as [|movie rest IH]; simpl.
  - split; [|done]. by intros _ i m.
  - destruct (String.eqb_spec (Title movie) title) as [Heq|Hne].
    + split; [done|]. intros Hno. by destruct (Hno 0%nat movie).
    + rewrite IH. split.
      * intros Hno [|i] m Hm; simpl in Hm; [congruence|]. by apply (Hno i).
      * intros Hno i m Hm. by apply (Hno (S i)).
Qed.

Lemma GetIndexFromTitle_loop_shift movies title : forall index,
  GetIndexFromTitle_loop index movies title
  = (fun k => index + k) <$> GetIndexFromTitle_loop 0 movies title.
Proof.
  induction movies as [|movie rest IH]; intros index; simpl; [done|].
  destruct (String.eqb (Title movie) title); simpl.
  - f_equal. lia.
  - rewrite (IH (index + 1)), (IH (0 + 1)).
    destruct (GetIndexFromTitle_loop 0 rest title); simpl; [|done]. f_equal. lia.
Qed.

Lemma GetIndexFromTitle_loop_Some movies title (k : Z) :
  GetIndexFromTitle_loop 0 movies title = Some k
  <-> exists (i : nat) (m : Movie), k = Z.of_nat i /\ first_match movies title i m.
Proof.
  revert k. induction movies as [|movie rest IH]; intros k; simpl.
  - split; [done|]. by intros (i & m & _ & Hi & _).
  - destruct (String.eqb_spec (Title movie) title) as [Heq|Hne].
    + split.
      * intros [= <-]. exists 0%nat, movie. repeat split; [done|].
        intros j m' Hj. lia.
      * intros (i & m & -> & Hfm).
        assert (first_match (movie :: rest) title 0 movie) as H0.
        { repeat split; [done|]. intros j m' Hj. lia. }
        by destruct (first_match_unique _ _ _ _ _ _ Hfm H0) as [-> _].
    + rewrite GetIndexFromTitle_loop_shift. split.
      * destruct (GetIndexFromTitle_loop 0 rest title) as [k'|] eqn:Hk'; [|done].
        simpl. intros [= <-].
        destruct (proj1 (IH k') eq_refl) as (i & m & -> & Hi & Ht & Hmin).
        exists (S i), m. repeat split; [lia|done..|].
        intros [|j] m' Hj Hm'; simpl in Hm'; [congruence|].
        apply (Hmin j); [lia|done].
      * intros ([|i] & m & -> & Hi & Ht & Hmin); simpl in Hi; [congruence|].
        assert (GetIndexFromTitle_loop 0 rest title = Some (Z.of_nat i)) as ->.
        { apply IH. exists i, m. repeat split; [done..|]. intros j m' Hj Hm'.
          apply (Hmin (S j)); [lia|done]. }
        simpl. f_equal. lia.
Qed.

Lemma GetIndexFromTitle_loop_None movies title :
  GetIndexFromTitle_loop 0 movies title = None <-> no_match movies title.
Proof.
  induction movies as [|movie rest IH]; simpl.
  - split; [|done]. by intros _ i m.
  - destruct (String.eqb_spec (Title movie) title) as [Heq|Hne].
    + split; [done|]. intros Hno. by destruct (Hno 0%nat movie).
    + rewrite GetIndexFromTitle_loop_shift.
      destruct (GetIndexFromTitle_loop 0 rest title) as [k|] eqn:Hk; simpl.
      * split; [done|]. intros Hno.
        assert (Some k = None) as Hk'; [|done].
        apply IH. intros i m Hm. by apply (Hno (S i)).
      * split; [|done]. intros _ [|i] m Hm; simpl in Hm; [congruence|].
        by apply (proj1 IH eq_refl i).
Qed.

(** C2. [GetMovieByTitle s t] returns, with a nil error, the movie at the
    smallest index whose title is byte-for-byte [t]; it returns the
    Not-Found error exactly when no movie has that title, so for every
    title when the result is empty.  Equality is case-sensitive: a title
    that differs in the case of one letter is not a match. *)
Theorem GetMovieByTitle_first_match (s : SearchResult) (t : string) :
  (forall (i : nat) (m : Movie),
      first_match (Movies s) t i m -> GetMovieByTitle s t = (m, None))
  /\ (snd (GetMovieByTitle s t) = Some "Movie not Found"
      <-> ~ exists (i : nat) (m : Movie), Movies s !! i = Some m /\ Title m = t)
  /\ (snd (GetMovieByTitle s t) = None \/ snd (GetMovieByTitle s t) = Some "Movie not Found")
  /\ (Movies s = [] -> GetMovieByTitle s t = (Movie_zero, Some "Movie not Found"))
  /\ GetMovieByTitle (mkSearchResult "q" [mkMovie 0 "The Matrix" "" "" "" None 1999 false [] "" ""])
       "the matrix" = (Movie_zero, Some "Movie not Found").
Proof.
  unfold GetMovieByTitle.
  destruct (GetMovieByTitle_loop (Movies s) t) as [m0|] eqn:Hloop.
  - apply GetMovieByTitle_loop_Some in Hloop as (i0 & Hfm0).
    split; [|split; [|split; [|split]]]; simpl.
    + intros i m Hfm. by destruct (first_match_unique _ _ _ _ _ _ Hfm Hfm0) as [_ ->].
    + split; [done|]. intros Hno. destruct Hfm0 as (Hi0 & Ht0 & _).
      destruct Hno. by exists i0, m0.
    + by left.
    + intros Hnil. destruct Hfm0 as (Hi0 & _). by rewrite Hnil in Hi0.
    + done.
  - apply GetMovieByTitle_loop_None in Hloop.
    split; [|split; [|split; [|split]]]; simpl.
    + intros i m (Hi & Ht & _). by destruct (Hloop i m).
    + split; [|done]. intros _ (i & m & Hi & Ht). by destruct (Hloop i m).
    + by right.
    + done.
    + done.
Qed.

(** C3. [GetIndexFromTitle] succeeds exactly when [GetMovieByTitle] does;
    on success its index is the smallest one whose movie has title [t], and
    the movie [GetMovieByTitle] returns is the one at that index. *)
Theorem GetIndexFromTitle_consistent (s : SearchResult) (t : string) :
  (snd (GetIndexFromTitle s t) = None <-> snd (GetMovieByTitle s t) = None)
  /\ (snd (GetIndexFromTitle s t) = None ->
      exists i : nat,
        fst (GetIndexFromTitle s t) = Z.of_nat i
        /\ first_match (Movies s) t i (fst (GetMovieByTitle s t))
        /\ Movies s !! Z.to_nat (fst (GetIndexFromTitle s t))
           = Some (fst (GetMovieByTitle s t))).
Proof.
  unfold GetIndexFromTitle, GetMovieByTitle.
  destruct (GetIndexFromTitle_loop 0 (Movies s) t) as [k|] eqn:Hk.
  - apply GetIndexFromTitle_loop_Some in Hk as (i & m & -> & Hfm).
    assert (GetMovieByTitle_loop (Movies s) t = Some m) as ->.
    { apply GetMovieByTitle_loop_Some. by exists i. }
    simpl. split; [done|]. intros _. exists i. repeat split; try apply Hfm.
    rewrite Nat2Z.id. apply Hfm.
  - apply GetIndexFromTitle_loop_None in Hk.
    assert (GetMovieByTitle_loop (Movies s) t = None) as ->.
    { by apply GetMovieByTitle_loop_None. }
    simpl. split; [done|]. done.
Qed.

(** C10. When no movie has title [t], [GetIndexFromTitle] returns the
    integer 0 with the Not-Found error; a result whose first movie has
    title [t] returns the same integer 0 with a nil error, so the integer
    alone does not tell the two apart. *)
Theorem GetIndexFromTitle_not_found_is_zero (s : SearchResult) (t : string) :
  no_match (Movies s) t ->
  GetIndexFromTitle s t = (0, Some "Movie not Found")
  /\ forall (m : Movie) (rest : list Movie),
       Title m = t ->
       GetIndexFromTitle (mkSearchResult (Query s) (m :: rest)) t = (0, None).
Proof.
  intros Hno. split.
  - unfold GetIndexFromTitle.
    by rewrite (proj2 (GetIndexFromTitle_loop_None _ _) Hno).
  - intros m rest Ht. unfold GetIndexFromTitle. simpl.
    by rewrite (proj2 (String.eqb_eq _ _) Ht).
Qed.

Lemma GetIndexFromTitle_not_found_is_zero_witness :
  no_match (Movies (mkSearchResult "matrix" [])) "The Matrix"
  /\ GetIndexFromTitle (mkSearchResult "matrix" []) "The Matrix"
     = (0, Some "Movie not Found")
  /\ GetIndexFromTitle
       (mkSearchResult "matrix" [mkMovie 0 "The Matrix" "" "" "" None 1999 false [] "" ""])
       "The Matrix" = (0, None).
Proof.
  assert (no_match (Movies (mkSearchResult "matrix" [])) "The Matrix") as Hno.
  { intros i m Hm. simpl in Hm. by rewrite lookup_nil in Hm. }
  split; [exact Hno|].
  destruct (GetIndexFromTitle_not_found_is_zero _ _ Hno) as [H0 H1].
  split; [exact H0|]. apply (H1 _ []). reflexivity.
Defined.

(** Scenario 6 of the specification. *)
Example scenario_matrix :
  let s := mkSearchResult "matrix"
    [mkMovie 0 "The Matrix" "" "" "" None 0 false [] "" "";
     mkMovie 1 "The Matrix Reloaded" "" "" "" None 0 false [] "" ""] in
  GetIndexFromTitle s "The Matrix Reloaded" = (1, None)
  /\ Titles s = ["The Matrix"; "The Matrix Reloaded"].
Proof. split; reflexivity. Qed.


(** ** Bytes and letter case *)

Lemma byte_range (c : ascii) : 0 <= byte c < 256.
Proof. unfold byte. pose proof (N_ascii_bounded c). lia. Qed.

Lemma to_byte_byte (c : ascii) : to_byte (byte c) = c.
Proof.
  unfold to_byte. rewrite Z.mod_small by apply byte_range.
  unfold byte. rewrite N2Z.id. apply ascii_N_embedding.
Qed.

Lemma byte_to_byte (z : Z) : byte (to_byte z) = z mod 256.
Proof.
  unfold byte, to_byte. pose proof (Z.mod_pos_bound z 256 eq_refl).
  rewrite N_ascii_embedding by lia. lia.
Qed.

Lemma byte_inj (c d : ascii) : byte c = byte d -> c = d.
Proof. intros H. rewrite <- (to_byte_byte c), <- (to_byte_byte d). by rewrite H. Qed.


Lemma casing_refl (s : string) : casing s s.
Proof. induction s; constructor; [by left|done]. Qed.

Lemma lower_ascii_no_upper (s : string) : hasUpper s = false -> lower_ascii s = s.
Proof.
  unfold hasUpper. induction s as [|c s IH]; simpl; [done|].
  intros [Hc Hs]%orb_false_elim. unfold lower_byte. rewrite Hc. f_equal. by apply IH.
Qed.

Lemma casing_lower (name s : string) :
  casing name s -> lower_letters name = true ->
  isASCII s = true /\ lower_ascii s = name.
Proof.
  unfold lower_letters, isASCII.
  induction 1 as [|c d s s' Hcd Hcas IH]; simpl; [done|].
  intros [Hc Hs]%andb_true_iff. destruct (IH Hs) as [IHa IHl].
  rewrite IHa, IHl, andb_true_r. unfold lower_byte, is_upper.
  pose proof (byte_range c). pose proof (byte_range d).
  destruct Hcd as [->|[[Hd Hcd]|[Hc' Hcd]]].
  - split; [lia|].
    replace ((65 <=? byte c) && (byte c <=? 90)) with false by lia. done.
  - split; [lia|].
    replace ((65 <=? byte d) && (byte d <=? 90)) with true by lia.
    f_equal. apply byte_inj. rewrite byte_to_byte, Hcd, Z.mod_small; lia.
  - lia.
Qed.

(** ** The registry *)


Lemma fresh_lookup (h : store) : h !! fresh (dom h) = None.
Proof. apply not_elem_of_dom, is_fresh. Qed.

Lemma GetEngines_run (h : store) :
  exists (m : loc) (h' : store), GetEngines h = (m, h') /\ builds_registry h m h'.
Proof.
  unfold GetEngines, make_map, NewNetNaijaEngine, NewFzEngine, map_assign,
    St_bind, St_ret, alloc.
  set (m := fresh (dom h)).
  set (h1 := <[m := MapObj ∅]> h).
  set (p := fresh (dom h1)).
  set (h2 := <[p := EngineObj NetNaijaEngine]> h1).
  assert (h !! m = None) as Hm by apply fresh_lookup.
  assert (h1 !! p = None) as Hp by apply fresh_lookup.
  assert (m <> p) as Hmp.
  { intros <-. unfold h1 in Hp. by rewrite lookup_insert_eq in Hp. }
  assert (h !! p = None) as Hp'.
  { unfold h1 in Hp. by rewrite lookup_insert_ne in Hp. }
  assert (h2 !! m = Some (MapObj ∅)) as ->.
  { unfold h2, h1. rewrite lookup_insert_ne by done. by rewrite lookup_insert_eq. }
  set (r1 := <["netnaija" := _]> _).
  set (h3 := <[m := MapObj r1]> h2).
  set (q := fresh (dom h3)).
  set (h4 := <[q := EngineObj FzEngine]> h3).
  assert (h3 !! q = None) as Hq by apply fresh_lookup.
  assert (m <> q) as Hmq.
  { intros <-. unfold h3 in Hq. by rewrite lookup_insert_eq in Hq. }
  assert (p <> q) as Hpq.
  { intros <-. unfold h3, h2 in Hq. rewrite lookup_insert_ne in Hq by done.
    by rewrite lookup_insert_eq in Hq. }
  assert (h !! q = None) as Hq'.
  { unfold h3, h2, h1 in Hq. by rewrite !lookup_insert_ne in Hq. }
  assert (h4 !! m = Some (MapObj r1)) as ->.
  { unfold h4, h3. rewrite lookup_insert_ne by done. by rewrite lookup_insert_eq. }
  eexists _, _. split; [reflexivity|].
  exists p, q. repeat split; try done.
  unfold h4, h3, h2, h1. apply map_eq. intros l.
  destruct (decide (l = m)) as [->|Hlm].
  { by rewrite !lookup_insert_eq. }
  rewrite (lookup_insert_ne _ m l) by done.
  rewrite (lookup_insert_ne _ m l) by done.
  destruct (decide (l = q)) as [->|Hlq].
  { by rewrite !lookup_insert_eq. }
  rewrite !(lookup_insert_ne _ q l) by done.
  rewrite (lookup_insert_ne _ m l) by done.
  destruct (decide (l = p)) as [->|Hlp].
  { by rewrite !lookup_insert_eq. }
  rewrite !(lookup_insert_ne _ p l) by done.
  by rewrite (lookup_insert_ne _ m l) by done.
Qed.

Lemma builds_registry_lookup (h : store) (m : loc) (h' : store) :
  builds_registry h m h' ->
  exists p q : loc,
    h !! p = None /\ h !! q = None /\ p <> q
    /\ h' !! p = Some (EngineObj NetNaijaEngine)
    /\ h' !! q = Some (EngineObj FzEngine)
    /\ h' !! m = Some (MapObj (<["fzmovies" := Some (mkEngineRef FzEngine q)]>
                                (<["netnaija" := Some (mkEngineRef NetNaijaEngine p)]> ∅)))
    /\ forall l : loc, l <> m -> l <> p -> l <> q -> h' !! l = h !! l.
Proof.
  intros (p & q & Hm & Hp & Hq & Hmp & Hmq & Hpq & ->).
  exists p, q. repeat split; try done.
  - rewrite lookup_insert_ne by done. rewrite lookup_insert_ne by done.
    by rewrite lookup_insert_eq.
  - rewrite lookup_insert_ne by done. by rewrite lookup_insert_eq.
  - by rewrite lookup_insert_eq.
  - intros l Hlm Hlp Hlq. by rewrite !lookup_insert_ne.
Qed.

Lemma registry_of_run (h : store) :
  exists p q : loc,
    h !! p = None /\ h !! q = None /\ p <> q
    /\ registry_of h = <["fzmovies" := Some (mkEngineRef FzEngine q)]>
                         (<["netnaija" := Some (mkEngineRef NetNaijaEngine p)]> ∅).
Proof.
  destruct (GetEngines_run h) as (m & h' & Hrun & Hb).
  destruct (builds_registry_lookup _ _ _ Hb) as (p & q & Hp & Hq & Hpq & _ & _ & Hm & _).
  exists p, q. repeat split; try done.
  unfold registry_of. by rewrite Hrun, Hm.
Qed.

Lemma registry_of_dom (h : store) :
  dom (registry_of h) = ({["netnaija"; "fzmovies"]} : gset string).
Proof.
  destruct (registry_of_run h) as (p & q & _ & _ & _ & ->).
  rewrite !dom_insert_L, dom_empty_L. set_solver.
Qed.

Lemma registered_iff (name : string) :
  registered name <-> name = "netnaija" \/ name = "fzmovies".
Proof.
  unfold registered. split.
  - intros (h & Hin). rewrite registry_of_dom in Hin. set_solver.
  - intros Hname. exists ∅. rewrite registry_of_dom. set_solver.
Qed.

(** C8. A call of [GetEngines] builds one [NetNaijaEngine] and one
    [FzEngine] at addresses that were free, stores them under the keys
    ["netnaija"] and ["fzmovies"] of a map that is new as well, and returns
    that map; its key set is exactly those two names.  Nothing is cached: a
    second call returns another map, holding other adapter instances, with
    the same key set, and leaves the first map as it was. *)
Theorem GetEngines_fresh_registry (h : store) :
  exists (m : loc) (h1 : store) (m' : loc) (h2 : store),
    GetEngines h = (m, h1) /\ builds_registry h m h1
    /\ dom (registry_of h) = ({["netnaija"; "fzmovies"]} : gset string)
    /\ GetEngines h1 = (m', h2) /\ builds_registry h1 m' h2
    /\ m' <> m
    /\ h2 !! m = h1 !! m
    /\ dom (registry_of h1) = dom (registry_of h)
    /\ forall (k : string) (e e' : engine_ref),
         registry_of h !! k = Some (Some e) ->
         registry_of h1 !! k = Some (Some e') ->
         dyn_type e = dyn_type e' /\ ptr e <> ptr e'.
Proof.
  destruct (GetEngines_run h) as (m & h1 & Hrun & Hb).
  destruct (GetEngines_run h1) as (m' & h2 & Hrun' & Hb').
  exists m, h1, m', h2.
  destruct (builds_registry_lookup _ _ _ Hb) as (p & q & Hp & Hq & Hpq & Hp1 & Hq1 & Hm1 & _).
  destruct (builds_registry_lookup _ _ _ Hb')
    as (p' & q' & Hp' & Hq' & Hpq' & Hp2 & Hq2 & Hm2 & Hframe).
  assert (h1 !! m' = None) as Hm' by (by destruct Hb' as (? & ? & ? & _)).
  assert (m' <> m) as Hne by congruence.
  split_and!; try done.
  - apply registry_of_dom.
  - apply Hframe; congruence.
  - by rewrite !registry_of_dom.
  - intros k e e' He He'. unfold registry_of in He, He'.
    rewrite Hrun, Hm1 in He. rewrite Hrun', Hm2 in He'.
    destruct (decide (k = "fzmovies")) as [->|Hk1].
    { rewrite lookup_insert_eq in He, He'. simplify_eq. simpl. split; congruence. }
    rewrite lookup_insert_ne in He, He' by done.
    destruct (decide (k = "netnaija")) as [->|Hk2].
    { rewrite lookup_insert_eq in He, He'. simplify_eq. simpl. split; congruence. }
    rewrite lookup_insert_ne in He by done. by rewrite lookup_empty in He.
Qed.

(** Two calls in a row, starting from the empty store: addresses 0 to 2 go
    to the first registry and its adapters, 3 to 5 to the second. *)
Example scenario_GetEngines :
  fst (GetEngines ∅) = 0%nat
  /\ registry_of ∅ !! "netnaija" = Some (Some (mkEngineRef NetNaijaEngine 1%nat))
  /\ registry_of ∅ !! "fzmovies" = Some (Some (mkEngineRef FzEngine 2%nat))
  /\ registry_of ∅ !! "NetNaija" = None
  /\ fst (GetEngines (snd (GetEngines ∅))) = 3%nat
  /\ registry_of (snd (GetEngines ∅)) !! "netnaija"
     = Some (Some (mkEngineRef NetNaijaEngine 4%nat)).
Proof. repeat split; vm_compute; reflexivity. Qed.

(** *** Lookup by name

    The lemmas on [GetEngine] hold whatever [strings.ToLower] does to a
    string that has a non-ASCII byte. *)
Section GetEngine.

Variable unicode_lower : string -> string.

Lemma strings_ToLower_ascii (s : string) :
  isASCII s = true -> strings_ToLower unicode_lower s = lower_ascii s.
Proof.
  intros Ha. unfold strings_ToLower. rewrite Ha.
  destruct (hasUpper s) eqn:Hu; [done|]. by rewrite lower_ascii_no_upper.
Qed.

Lemma casing_ToLower (name s : string) :
  casing name s -> lower_letters name = true -> strings_ToLower unicode_lower s = name.
Proof.
  intros Hcas Hlow. destruct (casing_lower _ _ Hcas Hlow) as [Ha Hl].
  by rewrite strings_ToLower_ascii.
Qed.

Lemma GetEngine_run (engine : string) (h : store) :
  fst (GetEngine unicode_lower engine h)
  = match registry_of h !! strings_ToLower unicode_lower engine with
    | Some (Some e) => (Some e, None)
    | _ => (None, fmt_Errorf "Engine %s Does not exist" [engine])
    end.
Proof.
  unfold GetEngine, registry_of, St_bind, map_index.
  destruct (GetEngines_run h) as (m & h' & -> & Hb).
  destruct (builds_registry_lookup _ _ _ Hb) as (p & q & _ & _ & _ & _ & _ & -> & _).
  destruct (_ !! strings_ToLower unicode_lower engine) as [[e|]|]; done.
Qed.

Lemma Errorf_does_not_exist (engine : string) :
  fmt_Errorf "Engine %s Does not exist" [engine]
  = Some ("Engine " +:+ engine +:+ " Does not exist").
Proof. reflexivity. Qed.

(** C1. Lookup is case-insensitive: every registered name has one adapter,
    and for every casing of the name, in every state of the store,
    [GetEngine] returns an engine of that adapter with a nil error (the
    adapter is what stays the same from call to call; the instance is
    built anew each time).  A name that is not registered once lower-cased
    yields a nil engine and the error text built from the name as the
    caller wrote it. *)
Theorem GetEngine_case_insensitive :
  (forall name : string,
      registered name ->
      exists a : adapter,
        forall (s : string) (h : store),
          casing name s ->
          identity (fst (fst (GetEngine unicode_lower s h))) = Some a
          /\ snd (fst (GetEngine unicode_lower s h)) = None)
  /\ (forall (name : string) (h : store),
        ~ registered (strings_ToLower unicode_lower name) ->
        fst (GetEngine unicode_lower name h)
        = (None, Some ("Engine " +:+ name +:+ " Does not exist"))).
Proof.
  split.
  - intros name [-> | ->]%registered_iff.
    + exists NetNaijaEngine. intros s h Hcas. rewrite GetEngine_run.
      rewrite (casing_ToLower _ _ Hcas eq_refl).
      destruct (registry_of_run h) as (p & q & _ & _ & _ & ->).
      rewrite lookup_insert_ne by done. by rewrite lookup_insert_eq.
    + exists FzEngine. intros s h Hcas. rewrite GetEngine_run.
      rewrite (casing_ToLower _ _ Hcas eq_refl).
      destruct (registry_of_run h) as (p & q & _ & _ & _ & ->).
      by rewrite lookup_insert_eq.
  - intros name h Hno. rewrite GetEngine_run, Errorf_does_not_exist.
    assert (registry_of h !! strings_ToLower unicode_lower name = None) as ->; [|done].
    apply not_elem_of_dom. intros Hin. apply Hno. by exists h.
Qed.

(** Scenario 4 of the specification, in the empty store: three casings of
    one name reach the same adapter, and an unknown name is reported as the
    caller wrote it. *)
Example scenario_GetEngine :
  identity (fst (fst (GetEngine unicode_lower "NetNaija" ∅))) = Some NetNaijaEngine
  /\ identity (fst (fst (GetEngine unicode_lower "netnaija" ∅))) = Some NetNaijaEngine
  /\ identity (fst (fst (GetEngine unicode_lower "NETNAIJA" ∅))) = Some NetNaijaEngine
  /\ identity (fst (fst (GetEngine unicode_lower "FzMovies" ∅))) = Some FzEngine
  /\ fst (GetEngine unicode_lower "DoesNotExist" ∅)
     = (None, Some "Engine DoesNotExist Does not exist").
Proof. repeat split; vm_compute; reflexivity. Qed.

End GetEngine.

(** ** [strconv.Atoi] and the index-correlation helper *)

Lemma string_snoc_ind (P : string -> Prop) :
  P EmptyString ->
  (forall (s : string) (c : ascii), P s -> P (s +:+ String c EmptyString)) ->
  forall s : string, P s.
Proof.
  intros Hnil Hsnoc s.
  rewrite <- (string_of_list_ascii_of_string s).
  induction (list_ascii_of_string s) as [|c l IH] using rev_ind; [done|].
  assert (string_of_list_ascii (l ++ [c])
          = string_of_list_ascii l +:+ String c EmptyString) as ->.
  { clear. induction l as [|a l IH]; simpl; [done|]. by rewrite IH. }
  by apply Hsnoc.
Qed.

Lemma append_snoc_length (s : string) (c : ascii) :
  String.length (s +:+ String c EmptyString) = S (String.length s).
Proof. induction s as [|a s IH]; simpl; [done|]. by rewrite IH. Qed.

Lemma digit_byte (c : ascii) :
  48 <= byte c <= 57 -> (9 <? (byte c - 48) mod 256) = false /\ (byte c - 48) mod 256 = byte c - 48.
Proof. intros H. rewrite Z.mod_small by lia. split; lia. Qed.

Lemma not_digit_byte (c : ascii) :
  ~ 48 <= byte c <= 57 -> (9 <? (byte c - 48) mod 256) = true.
Proof.
  intros H. pose proof (byte_range c).
  destruct (Z_lt_le_dec (byte c) 48).
  - replace ((byte c - 48) mod 256) with (byte c + 208); [lia|].
    symmetry. rewrite <- (Z.mod_small (byte c + 208) 256) by lia.
    rewrite <- (Z_mod_plus_full (byte c - 48) 1 256). f_equal. lia.
  - rewrite Z.mod_small by lia. lia.
Qed.

Lemma Atoi_fast_loop_snoc (s : string) (c : ascii) : forall acc : Z,
  Atoi_fast_loop acc (s +:+ String c EmptyString)
  = n ← Atoi_fast_loop acc s; Atoi_fast_loop n (String c EmptyString).
Proof.
  induction s as [|a s IH]; intros acc; simpl; [|].
  - by destruct (9 <? _).
  - destruct (9 <? (byte a - 48) mod 256); [done|]. apply IH.
Qed.

Lemma digits_value_nonempty (s : string) (n : Z) :
  digits_value s n -> exists c rest, s = String c rest /\ 48 <= byte c <= 57.
Proof.
  induction 1 as [c Hc|s n c Hs IH Hc]; [by eauto|].
  destruct IH as (c0 & rest & -> & Hc0). simpl. eauto.
Qed.

Lemma digits_value_bound (s : string) (n : Z) :
  digits_value s n -> 0 <= n < 10 ^ Z.of_nat (String.length s).
Proof.
  induction 1 as [c Hc|s n c Hs IH Hc].
  - simpl. lia.
  - rewrite append_snoc_length, Nat2Z.inj_succ, Z.pow_succ_r by lia. lia.
Qed.

Lemma Atoi_fast_loop_complete (s : string) (n : Z) :
  digits_value s n -> Atoi_fast_loop 0 s = Some n.
Proof.
  induction 1 as [c Hc|s n c Hs IH Hc].
  - simpl. destruct (digit_byte c Hc) as [-> ->]. done.
  - rewrite Atoi_fast_loop_snoc, IH. simpl.
    destruct (digit_byte c Hc) as [-> ->]. f_equal. lia.
Qed.

Lemma Atoi_fast_loop_sound (s : string) : forall n : Z,
  s <> EmptyString -> Atoi_fast_loop 0 s = Some n -> digits_value s n.
Proof.
  induction s as [|s c IH] using string_snoc_ind; intros n Hne; [done|].
  rewrite Atoi_fast_loop_snoc.
  destruct (Atoi_fast_loop 0 s) as [n'|] eqn:Hn'; simpl; [|done].
  destruct (decide (48 <= byte c <= 57)) as [Hc|Hc].
  - destruct (digit_byte c Hc) as [-> ->]. intros [= <-].
    destruct s as [|a s'].
    + simpl in Hn'. injection Hn' as <-. simpl.
      replace (0 * 10 + (byte c - 48)) with (byte c - 48) by lia. by constructor.
    + replace (n' * 10 + (byte c - 48)) with (10 * n' + (byte c - 48)) by lia.
      constructor; [|done]. by apply IH.
  - by rewrite (not_digit_byte c Hc).
Qed.

Lemma ParseUint_loop_snoc (s : string) (c : ascii) : forall acc : Z,
  ParseUint_loop acc (s +:+ String c EmptyString)
  = match ParseUint_loop acc s with
    | (n, None) => ParseUint_step n c
    | (v, Some e) => (v, Some e)
    end.
Proof.
  induction s as [|a s IH]; intros acc; [done|].
  change (String a s +:+ String c EmptyString) with (String a (s +:+ String c EmptyString)).
  cbn [ParseUint_loop].
  destruct ((48 <=? byte a) && (byte a <=? 57)); [|done].
  destruct (maxUint64 / 10 + 1 <=? acc); [done|].
  cbv zeta. destruct (_ || _); [done|]. apply IH.
Qed.

Lemma ParseUint_loop_digit (n : Z) (c : ascii) :
  48 <= byte c <= 57 -> 0 <= n -> 10 * n + (byte c - 48) <= maxUint64 ->
  ParseUint_loop n (String c EmptyString) = (10 * n + (byte c - 48), None).
Proof.
  intros Hc Hn Hmax. unfold maxUint64 in *. cbn [ParseUint_loop].
  replace ((48 <=? byte c) && (byte c <=? 57)) with true by lia.
  unfold maxUint64.
  replace ((2 ^ 64 - 1) / 10 + 1 <=? n) with false.
  2:{ symmetry. apply Z.leb_gt. change ((2 ^ 64 - 1) / 10 + 1) with 1844674407370955162.
      change (2 ^ 64 - 1) with 18446744073709551615 in Hmax. lia. }
  cbv zeta. rewrite Z.mod_small by (change (2 ^ 64) with 18446744073709551616;
    change (2 ^ 64 - 1) with 18446744073709551615 in Hmax; lia).
  replace (_ || _) with false.
  2:{ symmetry. apply orb_false_intro; lia. }
  f_equal. lia.
Qed.

Lemma ParseUint_loop_complete (s : string) (n : Z) :
  digits_value s n -> n <= maxUint64 -> ParseUint_loop 0 s = (n, None).
Proof.
  induction 1 as [c Hc|s n c Hs IH Hc]; intros Hmax.
  - rewrite ParseUint_loop_digit by lia. f_equal; lia.
  - pose proof (digits_value_bound _ _ Hs) as [Hn _].
    rewrite ParseUint_loop_snoc, IH by lia. by apply ParseUint_loop_digit.
Qed.

Lemma ParseUint_loop_inv (n : Z) (c : ascii) (v : Z) :
  0 <= n ->
  ParseUint_loop n (String c EmptyString) = (v, None) ->
  48 <= byte c <= 57 /\ v = 10 * n + (byte c - 48) /\ v <= maxUint64.
Proof.
  intros Hn. cbn [ParseUint_loop].
  destruct (decide (48 <= byte c <= 57)) as [Hc|Hc].
  2:{ replace ((48 <=? byte c) && (byte c <=? 57)) with false by lia. done. }
  replace ((48 <=? byte c) && (byte c <=? 57)) with true by lia.
  unfold maxUint64. change ((2 ^ 64 - 1) / 10 + 1) with 1844674407370955162.
  change (2 ^ 64 - 1) with 18446744073709551615.
  change (2 ^ 64) with 18446744073709551616.
  destruct (1844674407370955162 <=? n) eqn:Hcut; [done|]. cbv zeta.
  apply Z.leb_gt in Hcut.
  destruct (_ || _) eqn:Hov; [done|]. apply orb_false_elim in Hov as [H1 H2].
  intros [= <-]. split; [done|].
  assert ((n * 10 + (byte c - 48)) mod 18446744073709551616 = n * 10 + (byte c - 48)) as Heq.
  { destruct (Z_lt_le_dec (n * 10 + (byte c - 48)) 18446744073709551616).
    - apply Z.mod_small. lia.
    - exfalso.
      assert ((n * 10 + (byte c - 48)) mod 18446744073709551616
              = n * 10 + (byte c - 48) - 18446744073709551616) as Hw.
      { symmetry. rewrite <- (Z.mod_small (n * 10 + (byte c - 48) - 18446744073709551616)
                                18446744073709551616) by lia.
        rewrite <- (Z_mod_plus_full (n * 10 + (byte c - 48) - 18446744073709551616) 1
                     18446744073709551616). f_equal. lia. }
      rewrite Hw in H1. lia. }
  rewrite Heq in *. lia.
Qed.

Lemma ParseUint_loop_range (s : string) : forall (acc v : Z),
  ParseUint_loop acc s = (v, Some ErrRange) -> v = maxUint64.
Proof.
  induction s as [|a s IH]; intros acc v; cbn [ParseUint_loop]; [done|].
  destruct ((48 <=? byte a) && (byte a <=? 57)); [|done].
  destruct (maxUint64 / 10 + 1 <=? acc); [by intros [= <-]|].
  cbv zeta. destruct (_ || _); [by intros [= <-]|]. apply IH.
Qed.

Lemma ParseUint_loop_sound (s : string) : forall v : Z,
  s <> EmptyString -> ParseUint_loop 0 s = (v, None) ->
  digits_value s v /\ v <= maxUint64.
Proof.
  induction s as [|s c IH] using string_snoc_ind; intros v Hne; [done|].
  rewrite ParseUint_loop_snoc.
  destruct (ParseUint_loop 0 s) as [n' [e|]] eqn:Hn'; [done|].
  unfold ParseUint_step.
  destruct s as [|a s'].
  - simpl in Hn'. injection Hn' as <-. intros Hstep.
    apply ParseUint_loop_inv in Hstep as (Hc & -> & Hmax); [|lia].
    split; [|done]. simpl.
    replace (10 * 0 + (byte c - 48)) with (byte c - 48) by lia. by constructor.
  - destruct (IH n') as [Hdv Hmax']; [done..|].
    pose proof (digits_value_bound _ _ Hdv) as [Hn0 _].
    intros Hstep. apply ParseUint_loop_inv in Hstep as (Hc & -> & Hmax); [|done].
    split; [|done]. by constructor.
Qed.

Ltac int_consts :=
  unfold maxUint64 in *;
  change (2 ^ (intSize - 1)) with 9223372036854775808 in *;
  change (2 ^ 63) with 9223372036854775808 in *;
  change (2 ^ 64) with 18446744073709551616 in *;
  change (10 ^ 18) with 1000000000000000000 in *.

Lemma digit_not_sign (c : ascii) :
  48 <= byte c <= 57 -> Ascii.eqb c "-" = false /\ Ascii.eqb c "+" = false.
Proof.
  intros Hc. split.
  - destruct (Ascii.eqb_spec c "-") as [->|]; [|done].
    change (byte "-") with 45 in Hc. lia.
  - destruct (Ascii.eqb_spec c "+") as [->|]; [|done].
    change (byte "+") with 43 in Hc. lia.
Qed.

Lemma ParseInt_complete (s : string) (i : Z) :
  encodes_int s i -> - 2 ^ 63 <= i < 2 ^ 63 -> ParseInt s = (i, None).
Proof.
  intros Henc Hi. unfold ParseInt.
  destruct Henc as [s n Hd|s n Hd|s n Hd].
  - destruct (digits_value_nonempty _ _ Hd) as (c & rest & -> & Hc).
    destruct (digit_not_sign c Hc) as [-> ->]. cbn [orb negb andb].
    unfold ParseUint. rewrite (ParseUint_loop_complete _ _ Hd) by (int_consts; lia).
    int_consts. replace (9223372036854775808 <=? n) with false by lia. done.
  - change (Ascii.eqb "+" "-") with false. change (Ascii.eqb "+" "+") with true.
    cbn [orb negb andb].
    destruct (digits_value_nonempty _ _ Hd) as (c & rest & Hs & Hc).
    unfold ParseUint. rewrite (ParseUint_loop_complete _ _ Hd) by (int_consts; lia).
    rewrite Hs at 1.
    int_consts. replace (9223372036854775808 <=? n) with false by lia. done.
  - change (Ascii.eqb "-" "-") with true. change (Ascii.eqb "-" "+") with false.
    cbn [orb negb andb].
    destruct (digits_value_nonempty _ _ Hd) as (c & rest & Hs & Hc).
    unfold ParseUint. rewrite (ParseUint_loop_complete _ _ Hd) by (int_consts; lia).
    rewrite Hs at 1.
    int_consts. replace (9223372036854775808 <? n) with false by lia. done.
Qed.

Lemma ParseUint_ok (s : string) (un : Z) :
  ParseUint s = (un, None) -> digits_value s un /\ un <= maxUint64.
Proof.
  destruct s as [|c rest]; [done|]. unfold ParseUint. by apply ParseUint_loop_sound.
Qed.

Lemma ParseUint_range (s : string) (un : Z) :
  ParseUint s = (un, Some ErrRange) -> un = maxUint64.
Proof.
  destruct s as [|c rest]; [done|]. unfold ParseUint. apply ParseUint_loop_range.
Qed.

Lemma ParseInt_sound (s : string) (i : Z) :
  ParseInt s = (i, None) -> encodes_int s i /\ - 2 ^ 63 <= i < 2 ^ 63.
Proof.
  unfold ParseInt. destruct s as [|c0 rest]; [done|].
  set (digits := if Ascii.eqb c0 "+" || Ascii.eqb c0 "-" then rest else String c0 rest).
  destruct (ParseUint digits) as [un [[]|]] eqn:HU; [done| |].
  - apply ParseUint_range in HU as ->.
    destruct (Ascii.eqb c0 "-"); cbn [negb andb].
    + change (2 ^ (intSize - 1) <? maxUint64) with true. by cbv iota.
    + change (2 ^ (intSize - 1) <=? maxUint64) with true. by cbv iota.
  - apply ParseUint_ok in HU as [Hd Hmax]. unfold digits in Hd.
    pose proof (digits_value_bound _ _ Hd) as [Hun _].
    destruct (Ascii.eqb_spec c0 "-") as [->|Hm]; cbn [negb andb orb] in *.
    + rewrite orb_true_r in Hd. int_consts.
      destruct (9223372036854775808 <? un) eqn:Hcut; [done|].
      intros [= <-]. split; [by constructor|lia].
    + rewrite orb_false_r in Hd. int_consts.
      destruct (9223372036854775808 <=? un) eqn:Hcut; [done|].
      intros [= <-]. split; [|lia].
      destruct (Ascii.eqb_spec c0 "+") as [->|Hp]; by constructor.
Qed.

Lemma Atoi_complete (s : string) (i : Z) :
  encodes_int s i -> - 2 ^ 63 <= i < 2 ^ 63 -> Atoi s = (i, None).
Proof.
  intros Henc Hi. unfold Atoi.
  destruct (_ && _) eqn:Hlen.
  - destruct Henc as [s n Hd|s n Hd|s n Hd].
    + destruct (digits_value_nonempty _ _ Hd) as (c & rest & -> & Hc).
      destruct (digit_not_sign c Hc) as [-> ->]. cbn [orb andb].
      by rewrite (Atoi_fast_loop_complete _ _ Hd).
    + change (Ascii.eqb "+" "-") with false. change (Ascii.eqb "+" "+") with true.
      cbn [orb andb].
      destruct (digits_value_nonempty _ _ Hd) as (c & rest & Hs & Hc).
      rewrite (Atoi_fast_loop_complete _ _ Hd). by rewrite Hs.
    + change (Ascii.eqb "-" "-") with true. cbn [orb andb].
      destruct (digits_value_nonempty _ _ Hd) as (c & rest & Hs & Hc).
      rewrite (Atoi_fast_loop_complete _ _ Hd). by rewrite Hs.
  - by rewrite (ParseInt_complete _ _ Henc Hi).
Qed.

Lemma pow10_le (k : nat) : (k <= 18)%nat -> 10 ^ Z.of_nat k <= 10 ^ 18.
Proof. intros Hk. apply Z.pow_le_mono_r; lia. Qed.

Lemma Atoi_sound (s : string) (i : Z) :
  Atoi s = (i, None) -> encodes_int s i /\ - 2 ^ 63 <= i < 2 ^ 63.
Proof.
  unfold Atoi. destruct (_ && _) eqn:Hlen.
  - destruct s as [|c0 rest]; [done|].
    apply andb_true_iff in Hlen as [_ Hlen]. apply Z.ltb_lt in Hlen.
    cbn [String.length] in Hlen.
    destruct (Ascii.eqb_spec c0 "-") as [->|Hm]; cbn [orb andb].
    + destruct (String.length rest =? 0)%nat eqn:Hr; [done|].
      destruct (Atoi_fast_loop 0 rest) as [n|] eqn:Hn; [|done]. intros [= <-].
      assert (rest <> EmptyString) as Hne by (by intros ->).
      pose proof (Atoi_fast_loop_sound _ _ Hne Hn) as Hd.
      pose proof (digits_value_bound _ _ Hd).
      pose proof (pow10_le (String.length rest)).
      split; [by constructor|int_consts; lia].
    + destruct (Ascii.eqb_spec c0 "+") as [->|Hp]; cbn [orb andb].
      * destruct (String.length rest =? 0)%nat eqn:Hr; [done|].
        destruct (Atoi_fast_loop 0 rest) as [n|] eqn:Hn; [|done]. intros [= <-].
        assert (rest <> EmptyString) as Hne by (by intros ->).
        pose proof (Atoi_fast_loop_sound _ _ Hne Hn) as Hd.
        pose proof (digits_value_bound _ _ Hd).
        pose proof (pow10_le (String.length rest)).
        split; [by constructor|int_consts; lia].
      * destruct (Atoi_fast_loop 0 (String c0 rest)) as [n|] eqn:Hn; [|done].
        intros [= <-].
        pose proof (Atoi_fast_loop_sound (String c0 rest) _ ltac:(done) Hn) as Hd.
        pose proof (digits_value_bound _ _ Hd) as Hb.
        pose proof (pow10_le (String.length (String c0 rest))) as Hp18.
        cbn [String.length] in Hb, Hp18.
        split; [by constructor|int_consts; lia].
  - destruct (ParseInt s) as [i64 [nerr|]] eqn:HP; [done|].
    intros [= <-]. by apply ParseInt_sound.
Qed.

Lemma Atoi_spec (s : string) (i : Z) :
  Atoi s = (i, None) <-> encodes_int s i /\ - 2 ^ 63 <= i < 2 ^ 63.
Proof. split; [apply Atoi_sound|]. intros [? ?]. by apply Atoi_complete. Qed.

Lemma string_app_cons (x : ascii) (a b : string) :
  String x a +:+ b = String x (a +:+ b).
Proof. reflexivity. Qed.

Lemma string_app_assoc (a b c : string) : (a +:+ b) +:+ c = a +:+ (b +:+ c).
Proof.
  induction a as [|x a IH]; [done|]. rewrite !string_app_cons. by rewrite IH.
Qed.

Lemma string_app_nil_r (a : string) : a +:+ EmptyString = a.
Proof. induction a as [|x a IH]; [done|]. rewrite string_app_cons. by rewrite IH. Qed.

Lemma FormatUint_loop_acc (fuel : nat) : forall (n : Z) (acc : string),
  FormatUint_loop fuel n acc = FormatUint_loop fuel n EmptyString +:+ acc.
Proof.
  induction fuel as [|fuel IH]; intros n acc; simpl; [done|].
  destruct (n <? 10); [done|].
  rewrite (IH _ (String _ acc)), (IH _ (String _ EmptyString)).
  by rewrite string_app_assoc.
Qed.

Lemma FormatUint_loop_S (fuel : nat) (n : Z) (acc : string) :
  FormatUint_loop (S fuel) n acc
  = if n <? 10 then String (to_byte (48 + n mod 10)) acc
    else FormatUint_loop fuel (n / 10) (String (to_byte (48 + n mod 10)) acc).
Proof. reflexivity. Qed.

Lemma FormatUint_loop_digits (fuel : nat) : forall n : Z,
  0 <= n < 2 ^ Z.of_nat (S fuel) ->
  digits_value (FormatUint_loop (S fuel) n EmptyString) n.
Proof.
  induction fuel as [|fuel IH]; intros n Hn; rewrite FormatUint_loop_S.
  all: set (d := to_byte (48 + n mod 10)).
  all: assert (48 <= byte d <= 57 /\ byte d - 48 = n mod 10) as [Hd Hv]
    by (unfold d; rewrite byte_to_byte; pose proof (Z.mod_pos_bound n 10 eq_refl);
        rewrite Z.mod_small by lia; lia).
  all: pose proof (digits_one d Hd) as H1; rewrite Hv in H1.
  all: destruct (n <? 10) eqn:Hlt;
    [ apply Z.ltb_lt in Hlt; by rewrite Z.mod_small in H1 by lia
    | apply Z.ltb_ge in Hlt ].
  - change (2 ^ Z.of_nat 1) with 2 in Hn. lia.
  - rewrite FormatUint_loop_acc.
    assert (0 <= n / 10 < 2 ^ Z.of_nat (S fuel)) as Hq.
    { rewrite (Nat2Z.inj_succ (S fuel)), Z.pow_succ_r in Hn by lia.
      split; [apply Z.div_pos; lia|]. apply Z.div_lt_upper_bound; lia. }
    pose proof (digits_snoc _ _ d (IH _ Hq) Hd) as H2. rewrite Hv in H2.
    by rewrite <- (Z.div_mod n 10) in H2 by lia.
Qed.

Lemma FormatUint_digits (n : Z) : 0 <= n -> digits_value (FormatUint n) n.
Proof.
  intros Hn. apply FormatUint_loop_digits. split; [done|].
  rewrite Nat2Z.inj_succ, Z2Nat.id by apply Z.log2_nonneg.
  destruct (Z.eq_dec n 0) as [->|Hn0]; [done|].
  apply Z.log2_spec. lia.
Qed.




Example getMovieIndexFromCtx_examples :
  getMovieIndexFromCtx (mkRequest (mkContext {["movieIndex" := "3"]})) = Returns 3
  /\ getMovieIndexFromCtx (mkRequest (mkContext {["movieIndex" := "-12"]})) = Returns (-12)
  /\ getMovieIndexFromCtx (mkRequest (mkContext ∅)) = Exits 1
  /\ getMovieIndexFromCtx (mkRequest (mkContext {["movieIndex" := "3a"]})) = Exits 1
  /\ getMovieIndexFromCtx (mkRequest (mkContext {["movieIndex" := ""]})) = Exits 1
  /\ getMovieIndexFromCtx
       (mkRequest (mkContext {["movieIndex" := "9223372036854775807"]}))
     = Returns 9223372036854775807
  /\ getMovieIndexFromCtx
       (mkRequest (mkContext {["movieIndex" := "9223372036854775808"]}))
     = Exits 1
  /\ strconv_Itoa (-2026) = "-2026".
Proof. repeat split; vm_compute; reflexivity. Qed.

(** ** Bit operations as arithmetic *)

Lemma lor_add_low (a b k : Z) :
  0 <= k -> a mod 2 ^ k = 0 -> 0 <= b < 2 ^ k -> Z.lor a b = a + b.
Proof.
  intros Hk Ha Hb.
  assert (Z.land a b = 0) as Hland.
  { apply Z.bits_inj'. intros n Hn. rewrite Z.land_spec, Z.bits_0.
    destruct (Z_lt_le_dec n k) as [Hlt|Hge].
    - rewrite <- (Z.mod_pow2_bits_low a k n) by lia. rewrite Ha, Z.bits_0. done.
    - rewrite <- (Z.mod_small b (2 ^ k)) by lia.
      rewrite Z.mod_pow2_bits_high by lia. apply andb_false_r. }
  rewrite <- Z.lxor_lor by done. symmetry. by apply Z.add_nocarry_lxor.
Qed.

Lemma land_low (a k : Z) : 0 <= k -> Z.land a (2 ^ k - 1) = a mod 2 ^ k.
Proof.
  intros Hk. rewrite <- Z.land_ones by done. f_equal. rewrite Z.ones_equiv. lia.
Qed.

Lemma land_63 (a : Z) : Z.land a 63 = a mod 64.
Proof. apply (land_low a 6). lia. Qed.
Lemma land_31 (a : Z) : Z.land a 31 = a mod 32.
Proof. apply (land_low a 5). lia. Qed.
Lemma land_15 (a : Z) : Z.land a 15 = a mod 16.
Proof. apply (land_low a 4). lia. Qed.
Lemma land_7 (a : Z) : Z.land a 7 = a mod 8.
Proof. apply (land_low a 3). lia. Qed.

Lemma shiftl_6 (a : Z) : Z.shiftl a 6 = a * 64.
Proof. by rewrite Z.shiftl_mul_pow2. Qed.
Lemma shiftl_12 (a : Z) : Z.shiftl a 12 = a * 4096.
Proof. by rewrite Z.shiftl_mul_pow2. Qed.
Lemma shiftl_18 (a : Z) : Z.shiftl a 18 = a * 262144.
Proof. by rewrite Z.shiftl_mul_pow2. Qed.
Lemma shiftr_4 (a : Z) : Z.shiftr a 4 = a / 16.
Proof. by rewrite Z.shiftr_div_pow2. Qed.
Lemma shiftr_6 (a : Z) : Z.shiftr a 6 = a / 64.
Proof. by rewrite Z.shiftr_div_pow2. Qed.
Lemma shiftr_12 (a : Z) : Z.shiftr a 12 = a / 4096.
Proof. by rewrite Z.shiftr_div_pow2. Qed.
Lemma shiftr_18 (a : Z) : Z.shiftr a 18 = a / 262144.
Proof. by rewrite Z.shiftr_div_pow2. Qed.

Ltac arith := Z.div_mod_to_equations; lia.

Lemma lor_add_mul (q b k : Z) :
  0 <= k -> 0 <= b < 2 ^ k -> Z.lor (q * 2 ^ k) b = q * 2 ^ k + b.
Proof. intros Hk Hb. apply (lor_add_low _ _ k); [done| |done]. by apply Z.mod_mul, Z.pow_nonzero. Qed.

Lemma decode2_arith (b0 b1 : Z) :
  192 <= b0 < 224 -> 128 <= b1 < 192 ->
  Z.lor (Z.shiftl (Z.land b0 31) 6) (Z.land b1 63) = (b0 - 192) * 64 + (b1 - 128).
Proof.
  intros H0 H1. rewrite land_31, land_63, shiftl_6.
  replace (b0 mod 32) with (b0 - 192) by arith.
  replace (b1 mod 64) with (b1 - 128) by arith.
  apply (lor_add_mul _ _ 6); [lia|]. change (2 ^ 6) with 64. lia.
Qed.

Lemma decode3_arith (b0 b1 b2 : Z) :
  224 <= b0 < 240 -> 128 <= b1 < 192 -> 128 <= b2 < 192 ->
  Z.lor (Z.lor (Z.shiftl (Z.land b0 15) 12) (Z.shiftl (Z.land b1 63) 6)) (Z.land b2 63)
  = (b0 - 224) * 4096 + (b1 - 128) * 64 + (b2 - 128).
Proof.
  intros H0 H1 H2. rewrite land_15, !land_63, shiftl_12, shiftl_6.
  replace (b0 mod 16) with (b0 - 224) by arith.
  replace (b1 mod 64) with (b1 - 128) by arith.
  replace (b2 mod 64) with (b2 - 128) by arith.
  rewrite (lor_add_mul (b0 - 224) _ 12) by (change (2 ^ 12) with 4096; lia).
  change (2 ^ 12) with 4096.
  replace ((b0 - 224) * 4096 + (b1 - 128) * 64)
    with (((b0 - 224) * 64 + (b1 - 128)) * 2 ^ 6) by lia.
  apply (lor_add_mul _ _ 6); [lia|]. change (2 ^ 6) with 64. lia.
Qed.

Lemma decode4_arith (b0 b1 b2 b3 : Z) :
  240 <= b0 < 248 -> 128 <= b1 < 192 -> 128 <= b2 < 192 -> 128 <= b3 < 192 ->
  Z.lor (Z.lor (Z.lor (Z.shiftl (Z.land b0 7) 18) (Z.shiftl (Z.land b1 63) 12))
               (Z.shiftl (Z.land b2 63) 6)) (Z.land b3 63)
  = (b0 - 240) * 262144 + (b1 - 128) * 4096 + (b2 - 128) * 64 + (b3 - 128).
Proof.
  intros H0 H1 H2 H3. rewrite land_7, !land_63, shiftl_18, shiftl_12, shiftl_6.
  replace (b0 mod 8) with (b0 - 240) by arith.
  replace (b1 mod 64) with (b1 - 128) by arith.
  replace (b2 mod 64) with (b2 - 128) by arith.
  replace (b3 mod 64) with (b3 - 128) by arith.
  rewrite (lor_add_mul (b0 - 240) _ 18) by (change (2 ^ 18) with 262144; lia).
  change (2 ^ 18) with 262144.
  replace ((b0 - 240) * 262144 + (b1 - 128) * 4096)
    with (((b0 - 240) * 64 + (b1 - 128)) * 2 ^ 12) by lia.
  rewrite (lor_add_mul _ _ 12) by (change (2 ^ 12) with 4096; lia).
  change (2 ^ 12) with 4096.
  replace (((b0 - 240) * 64 + (b1 - 128)) * 4096 + (b2 - 128) * 64)
    with ((((b0 - 240) * 64 + (b1 - 128)) * 64 + (b2 - 128)) * 2 ^ 6) by lia.
  rewrite (lor_add_mul _ _ 6) by (change (2 ^ 6) with 64; lia).
  change (2 ^ 6) with 64. lia.
Qed.

Lemma cont_byte (x : Z) : Z.lor 128 (Z.land (x mod 256) 63) = 128 + x mod 64.
Proof.
  rewrite land_63. pose proof (Z.mod_pos_bound (x mod 256) 64 eq_refl).
  rewrite (lor_add_mul 1 _ 7) by (change (2 ^ 7) with 128; lia).
  change (1 * 2 ^ 7) with 128. arith.
Qed.

Lemma lead_byte (t x k : Z) :
  0 <= k <= 7 -> t mod 2 ^ k = 0 -> 0 <= x < 2 ^ k ->
  Z.lor t (x mod 256) = t + x.
Proof.
  intros Hk Ht Hx.
  assert (2 ^ k <= 2 ^ 7) by (apply Z.pow_le_mono_r; lia).
  change (2 ^ 7) with 128 in *.
  rewrite Z.mod_small by lia. apply (lor_add_low _ _ k); [lia|done|done].
Qed.

(** ** [utf8.EncodeRune] undoes [utf8.DecodeRune] on valid encodings *)

Lemma to_byte_eq (z : Z) (c : ascii) : z = byte c -> to_byte z = c.
Proof. intros ->. apply to_byte_byte. Qed.

Lemma encode_rune1 (c : ascii) :
  byte c < 128 -> utf8_EncodeRune (byte c) = String c EmptyString.
Proof.
  intros Hc. pose proof (byte_range c). unfold utf8_EncodeRune.
  change (2 ^ 32) with 4294967296. rewrite Z.mod_small by lia.
  replace (byte c <=? 127) with true by lia. by rewrite to_byte_byte.
Qed.

Lemma encode_rune2 (c0 c1 : ascii) (r : Z) :
  194 <= byte c0 <= 223 -> 128 <= byte c1 < 192 ->
  r = (byte c0 - 192) * 64 + (byte c1 - 128) ->
  utf8_EncodeRune r = String c0 (String c1 EmptyString).
Proof.
  intros H0 H1 Hr. unfold utf8_EncodeRune.
  change (2 ^ 32) with 4294967296. rewrite (Z.mod_small r) by lia.
  replace (r <=? 127) with false by lia. replace (r <=? 2047) with true by lia.
  rewrite shiftr_6, cont_byte.
  rewrite (lead_byte 192 (r / 64) 5) by (try change (2 ^ 5) with 32; arith).
  f_equal; [|f_equal]; apply to_byte_eq; arith.
Qed.

Lemma encode_rune3 (c0 c1 c2 : ascii) (r : Z) :
  224 <= byte c0 <= 239 -> 128 <= byte c1 < 192 -> 128 <= byte c2 < 192 ->
  (byte c0 = 224 -> 160 <= byte c1) -> (byte c0 = 237 -> byte c1 <= 159) ->
  r = (byte c0 - 224) * 4096 + (byte c1 - 128) * 64 + (byte c2 - 128) ->
  utf8_EncodeRune r = String c0 (String c1 (String c2 EmptyString)).
Proof.
  intros H0 H1 H2 Hlo Hhi Hr. unfold utf8_EncodeRune, MaxRune.
  change (2 ^ 32) with 4294967296. rewrite (Z.mod_small r) by lia.
  replace (r <=? 127) with false by lia. replace (r <=? 2047) with false by lia.
  replace ((1114111 <? r) || (55296 <=? r) && (r <=? 57343)) with false by lia.
  replace (r <=? 65535) with true by lia.
  unfold encode3. rewrite shiftr_12, shiftr_6, !cont_byte.
  rewrite (lead_byte 224 (r / 4096) 4) by (try change (2 ^ 4) with 16; arith).
  f_equal; [|f_equal; [|f_equal]]; apply to_byte_eq; arith.
Qed.

Lemma encode_rune4 (c0 c1 c2 c3 : ascii) (r : Z) :
  240 <= byte c0 <= 244 -> 128 <= byte c1 < 192 -> 128 <= byte c2 < 192 ->
  128 <= byte c3 < 192 ->
  (byte c0 = 240 -> 144 <= byte c1) -> (byte c0 = 244 -> byte c1 <= 143) ->
  r = (byte c0 - 240) * 262144 + (byte c1 - 128) * 4096 + (byte c2 - 128) * 64
      + (byte c3 - 128) ->
  utf8_EncodeRune r = String c0 (String c1 (String c2 (String c3 EmptyString))).
Proof.
  intros H0 H1 H2 H3 Hlo Hhi Hr. unfold utf8_EncodeRune, MaxRune.
  change (2 ^ 32) with 4294967296. rewrite (Z.mod_small r) by lia.
  replace (r <=? 127) with false by lia. replace (r <=? 2047) with false by lia.
  replace ((1114111 <? r) || (55296 <=? r) && (r <=? 57343)) with false by lia.
  replace (r <=? 65535) with false by lia.
  unfold encode4. rewrite shiftr_18, shiftr_12, shiftr_6, !cont_byte.
  rewrite (lead_byte 240 (r / 262144) 3) by (try change (2 ^ 3) with 8; arith).
  f_equal; [|f_equal; [|f_equal; [|f_equal]]]; apply to_byte_eq; arith.
Qed.

Lemma invalid_rune : ((RuneError =? RuneError) && (1 =? 1)%nat) = true.
Proof. reflexivity. Qed.

(** A rune that decodes as valid: its width lies within the string, the
    encoder writes the same bytes back, what follows those bytes does not
    change the decoding, and the value is a Unicode scalar value. *)
Lemma DecodeRune_valid (s : string) (r : Z) (size : nat) :
  s <> EmptyString ->
  utf8_DecodeRune s = (r, size) ->
  ((r =? RuneError) && (size =? 1)%nat) = false ->
  (1 <= size <= String.length s)%nat
  /\ utf8_EncodeRune r = string_take size s
  /\ (forall tail : string, utf8_DecodeRune (string_take size s +:+ tail) = (r, size))
  /\ (byte (match s with String c _ => c | EmptyString => "000"%char end) < 128
      <-> size = 1%nat)
  /\ 0 <= r <= MaxRune.
Proof.
  destruct s as [|c0 s1]; [done|]. intros _.
  pose proof (byte_range c0) as R0.
  unfold utf8_DecodeRune at 1. cbv zeta.
  destruct (byte c0 <? 128) eqn:H0.
  { intros [= <- <-] _. split_and!; cbn [String.length string_take]; try lia.
    - apply encode_rune1. lia.
    - intros tail. rewrite string_app_cons. unfold utf8_DecodeRune. by rewrite H0.
    - unfold MaxRune. lia. }
  destruct ((194 <=? byte c0) && (byte c0 <=? 223)) eqn:H2.
  { destruct s1 as [|c1 s2]; [intros [= <- <-]; by rewrite invalid_rune|].
    destruct (is_cont (byte c1)) eqn:Hc1; [|intros [= <- <-]; by rewrite invalid_rune].
    intros [= <- <-] _. unfold is_cont in Hc1.
    rewrite decode2_arith by lia.
    split_and!; cbn [String.length string_take]; try lia.
    - apply encode_rune2; lia.
    - intros tail. rewrite !string_app_cons. unfold utf8_DecodeRune. cbv zeta.
      rewrite H0, H2. unfold is_cont.
      replace ((128 <=? byte c1) && (byte c1 <=? 191)) with true by lia.
      by rewrite decode2_arith by lia.
    - unfold MaxRune. lia. }
  destruct ((224 <=? byte c0) && (byte c0 <=? 239)) eqn:H3.
  { destruct s1 as [|c1 [|c2 s3]]; try (intros [= <- <-]; by rewrite invalid_rune).
    destruct (_ && _ && is_cont (byte c2)) eqn:Hc;
      [|intros [= <- <-]; by rewrite invalid_rune].
    intros [= <- <-] _.
    assert (128 <= byte c1 < 192 /\ 128 <= byte c2 < 192
            /\ (byte c0 = 224 -> 160 <= byte c1) /\ (byte c0 = 237 -> byte c1 <= 159))
      as (R1 & R2 & Rlo & Rhi).
    { unfold is_cont in Hc.
      destruct (byte c0 =? 224) eqn:E1, (byte c0 =? 237) eqn:E2; lia. }
    rewrite decode3_arith by lia.
    split_and!; cbn [String.length string_take]; try lia.
    - apply encode_rune3; lia.
    - intros tail. rewrite !string_app_cons. unfold utf8_DecodeRune. cbv zeta.
      rewrite H0, H2, H3, Hc. by rewrite decode3_arith by lia.
    - unfold MaxRune. lia. }
  destruct ((240 <=? byte c0) && (byte c0 <=? 244)) eqn:H4.
  { destruct s1 as [|c1 [|c2 [|c3 s4]]]; try (intros [= <- <-]; by rewrite invalid_rune).
    destruct (_ && _ && is_cont (byte c2) && is_cont (byte c3)) eqn:Hc;
      [|intros [= <- <-]; by rewrite invalid_rune].
    intros [= <- <-] _.
    assert (128 <= byte c1 < 192 /\ 128 <= byte c2 < 192 /\ 128 <= byte c3 < 192
            /\ (byte c0 = 240 -> 144 <= byte c1) /\ (byte c0 = 244 -> byte c1 <= 143))
      as (R1 & R2 & R3 & Rlo & Rhi).
    { unfold is_cont in Hc.
      destruct (byte c0 =? 240) eqn:E1, (byte c0 =? 244) eqn:E2; lia. }
    rewrite decode4_arith by lia.
    split_and!; cbn [String.length string_take]; try lia.
    - apply encode_rune4; lia.
    - intros tail. rewrite !string_app_cons. unfold utf8_DecodeRune. cbv zeta.
      rewrite H0, H2, H3, H4, Hc. by rewrite decode4_arith by lia.
    - unfold MaxRune. lia. }
  intros [= <- <-]. by rewrite invalid_rune.
Qed.

(** ** [unquote] undoes [appendString] on valid UTF-8 *)

Lemma string_take_drop (n : nat) (s : string) :
  string_take n s +:+ string_drop n s = s.
Proof.
  revert s. induction n as [|n IH]; intros [|c s]; cbn [string_take string_drop]; try done.
  rewrite string_app_cons. by rewrite IH.
Qed.

Lemma string_take_length (n : nat) (s : string) :
  (n <= String.length s)%nat -> String.length (string_take n s) = n.
Proof.
  revert s. induction n as [|n IH]; intros [|c s] Hn; cbn in *; try done; try lia.
  rewrite IH; lia.
Qed.

Lemma string_drop_length (n : nat) (s : string) :
  (n <= String.length s)%nat ->
  String.length (string_drop n s) = (String.length s - n)%nat.
Proof.
  revert s. induction n as [|n IH]; intros [|c s] Hn; cbn in *; try done; try lia.
  rewrite IH; lia.
Qed.

Lemma string_drop_app (a b : string) : string_drop (String.length a) (a +:+ b) = b.
Proof. induction a as [|x a IH]; [by destruct b|]. by rewrite string_app_cons. Qed.

Lemma string_app_length (a b : string) :
  String.length (a +:+ b) = (String.length a + String.length b)%nat.
Proof.
  induction a as [|x a IH]; [done|]. rewrite string_app_cons. cbn [String.length].
  by rewrite IH.
Qed.

Lemma DecodeRune_take4 (s : string) :
  utf8_DecodeRune (string_take 4 s) = utf8_DecodeRune s.
Proof. by destruct s as [|c0 [|c1 [|c2 [|c3 s4]]]]. Qed.

(** The ASCII bytes, one by one: what the encoder writes for the byte, the
    decoder reads back as that byte. *)
Lemma ascii_step (c : ascii) (rest : string) :
  (byte c <? 128) = true ->
  exists out : string,
    appendString_step (String c rest) = (out, 1%nat)
    /\ out <> EmptyString
    /\ forall tail : string,
         unquote_step (out +:+ tail) = Some (String c EmptyString, String.length out).
Proof.
  destruct c as [b0 b1 b2 b3 b4 b5 b6 b7].
  destruct b7, b0, b1, b2, b3, b4, b5, b6; intros H;
    try (cbv in H; discriminate H);
    (eexists; split; [cbv; reflexivity|];
     split; [discriminate|]; intros tail; cbv; reflexivity).
Qed.

Lemma rune_step (s : string) (r : Z) (size : nat) :
  s <> EmptyString ->
  utf8_DecodeRune s = (r, size) ->
  ((r =? RuneError) && (size =? 1)%nat) = false ->
  exists out : string,
    appendString_step s = (out, size)
    /\ out <> EmptyString
    /\ forall tail : string,
         unquote_step (out +:+ tail) = Some (string_take size s, String.length out).
Proof.
  intros Hne Hdec Hvalid.
  destruct (DecodeRune_valid s r size Hne Hdec Hvalid)
    as (Hsize & Henc & Htail & Hascii & Hr).
  destruct s as [|c0 s1]; [done|].
  destruct (byte c0 <? 128) eqn:H0.
  { assert (size = 1%nat) as -> by (apply Hascii; lia).
    destruct (ascii_step c0 s1 H0) as (out & Hstep & Hout & Hunq). by exists out. }
  assert (size <> 1%nat) as Hsz by (rewrite <- Hascii; lia).
  unfold appendString_step. cbv zeta. rewrite H0, DecodeRune_take4, Hdec, Hvalid.
  pose proof (byte_range c0) as R0.
  destruct ((r =? 8232) || (r =? 8233)) eqn:Hsep.
  - eexists. split; [reflexivity|]. split; [done|]. intros tail. rewrite <- Henc.
    apply orb_true_iff in Hsep as [->%Z.eqb_eq | ->%Z.eqb_eq]; reflexivity.
  - eexists. split; [reflexivity|]. split.
    { destruct size; [lia|]. done. }
    intros tail. rewrite string_take_length by lia.
    destruct size as [|k]; [lia|]. cbn [string_take]. rewrite string_app_cons.
    unfold unquote_step. cbv zeta.
    replace (byte c0 =? 92) with false by lia.
    replace ((byte c0 =? 34) || (byte c0 <? 32)) with false by lia.
    rewrite H0. rewrite <- string_app_cons.
    change (String c0 (string_take k s1)) with (string_take (S k) (String c0 s1)).
    by rewrite Htail, Henc.
Qed.

(** Every round of the encoder's loop consumes at least one byte and never
    more than there are, so a fuel of the length of the string is enough. *)
Lemma appendString_step_size (s : string) :
  s <> EmptyString ->
  (1 <= snd (appendString_step s) <= String.length s)%nat.
Proof.
  destruct s as [|c s1]; [done|]. intros Hne. unfold appendString_step. cbv zeta.
  destruct (byte c <? 128).
  - repeat match goal with
           | |- context [if ?b then _ else _] => destruct b
           end; cbn [snd String.length]; lia.
  - rewrite DecodeRune_take4.
    destruct (utf8_DecodeRune (String c s1)) as [r size] eqn:Hdec.
    destruct ((r =? RuneError) && (size =? 1)%nat) eqn:Hv.
    + cbn [snd String.length]. lia.
    + destruct (DecodeRune_valid _ r size Hne Hdec Hv) as (Hsize & _).
      by destruct (_ || _).
Qed.

Lemma appendString_loop_fuel (f1 : nat) : forall (f2 : nat) (s : string),
  (String.length s <= f1)%nat -> (String.length s <= f2)%nat ->
  appendString_loop f1 s = appendString_loop f2 s.
Proof.
  induction f1 as [|f1 IH]; intros f2 s H1 H2.
  - destruct s; [by destruct f2|cbn in H1; lia].
  - destruct s as [|c s1]; [by destruct f2|].
    destruct f2 as [|f2]; [cbn in H2; lia|].
    cbn [appendString_loop].
    pose proof (appendString_step_size (String c s1) ltac:(discriminate)) as Hn.
    destruct (appendString_step (String c s1)) as [out n]. cbn [snd] in Hn.
    f_equal. apply IH; rewrite string_drop_length by lia; cbn [String.length] in *; lia.
Qed.

Lemma split_last_snoc (s : string) (c : ascii) :
  split_last (s +:+ String c EmptyString) = Some (s, c).
Proof.
  induction s as [|a s IH]; [done|]. rewrite string_app_cons.
  cbn [split_last]. rewrite IH.
  destruct s; reflexivity.
Qed.

Lemma unquote_appendString_loop (k : nat) : forall (s : string) (f1 f2 : nat),
  ValidString_loop k s = true ->
  (String.length s <= f1)%nat ->
  (String.length (appendString_loop f1 s) <= f2)%nat ->
  unquote_loop f2 (appendString_loop f1 s) = Some s.
Proof.
  induction k as [|k IH]; intros s f1 f2 Hvalid Hf1 Hf2.
  - destruct s; [|by cbn in Hvalid]. by destruct f1, f2.
  - destruct s as [|c0 s1]; [by destruct f1, f2|].
    cbn [ValidString_loop] in Hvalid.
    destruct (utf8_DecodeRune (String c0 s1)) as [r size] eqn:Hdec.
    destruct ((r =? RuneError) && (size =? 1)%nat) eqn:Hv; [done|].
    assert (String c0 s1 <> EmptyString) as Hne by done.
    destruct (DecodeRune_valid _ r size Hne Hdec Hv) as (Hsize & _).
    destruct (rune_step _ r size Hne Hdec Hv) as (out & Hstep & Hout & Hunq).
    destruct f1 as [|f1]; [cbn in Hf1; lia|].
    cbn [appendString_loop] in *. rewrite Hstep in *.
    set (enc := appendString_loop f1 (string_drop size (String c0 s1))) in *.
    rewrite string_app_length in Hf2.
    destruct out as [|x out']; [done|].
    destruct f2 as [|f2]; [cbn in Hf2; lia|].
    rewrite string_app_cons. cbn [unquote_loop]. rewrite <- string_app_cons.
    rewrite Hunq, string_drop_app.
    assert (unquote_loop f2 enc = Some (string_drop size (String c0 s1))) as ->.
    { apply IH; [done| |fold enc; cbn [String.length] in Hf2; lia].
      rewrite string_drop_length by lia. cbn [String.length] in *. lia. }
    by rewrite string_take_drop.
Qed.

(** Round trip of one string: encoded as JSON text and decoded again, a
    valid UTF-8 string comes back byte for byte. *)
Lemma json_unquote_appendString (s : string) :
  utf8_ValidString s = true -> json_unquote (json_appendString s) = Some s.
Proof.
  intros Hvalid. unfold json_unquote, json_appendString.
  rewrite split_last_snoc. rewrite Ascii.eqb_refl. cbn [andb].
  by apply (unquote_appendString_loop (String.length s)).
Qed.

(** ** [Movie.MarshalJSON] *)

Lemma MarshalJSON_loop_links (us : list URL) : forall acc : option (list string),
  MarshalJSON_loop acc (Some <$> us)
  = Returns (match us with
             | [] => acc
             | _ => Some (default [] acc ++ (URL_text <$> us))
             end).
Proof.
  induction us as [|u us IH]; intros acc; [done|].
  cbn [fmap list_fmap MarshalJSON_loop URL_String outcome_bind].
  change (list_fmap _ _ Some us) with (Some <$> us). rewrite IH.
  unfold go_append. destruct us as [|u' us']; cbn [default].
  - done.
  - unfold id. by rewrite <- app_assoc.
Qed.

Lemma MarshalJSON_loop_nil (links : list (option URL)) : forall acc : option (list string),
  None ∈ links -> MarshalJSON_loop acc links = Panics nil_dereference.
Proof.
  induction links as [|link links IH]; intros acc Hin.
  - by apply not_elem_of_nil in Hin.
  - destruct link as [u|]; [|done].
    apply elem_of_cons in Hin as [Hin|Hin]; [done|].
    cbn [MarshalJSON_loop URL_String outcome_bind]. by apply IH.
Qed.

Lemma links_cases (links : list (option URL)) :
  (exists us : list URL, links = Some <$> us) \/ None ∈ links.
Proof.
  induction links as [|[u|] links IH].
  - left. by exists [].
  - destruct IH as [[us ->]|Hin].
    + left. by exists (u :: us).
    + right. apply elem_of_cons. by right.
  - right. apply elem_of_cons. by left.
Qed.

Lemma MarshalJSON_ok (m : Movie) (u : URL) (us : list URL) :
  DownloadLink m = Some u -> SDownloadLink m = Some <$> us ->
  MarshalJSON m = Returns (json_encode (json_of_MovieJSON (MovieJSON_of m u us)), None).
Proof.
  intros Hu Hus. unfold MarshalJSON. rewrite Hus, MarshalJSON_loop_links, Hu.
  cbn [outcome_bind URL_String]. unfold json_Marshal_MovieJSON, MovieJSON_of, rendered_links.
  by destruct us.
Qed.

(** The text of the document, member by member. *)
Lemma MovieJSON_text (v : MovieJSON) :
  json_encode (json_of_MovieJSON v)
  = scalars_text (MovieJSON_Movie v)
    +:+ links_text (json_appendString (MovieJSON_DownloadLink v))
          (match MovieJSON_SDownloadLink v with
           | None => "null"
           | Some links => array_text (json_appendString <$> links)
           end).
Proof.
  unfold json_of_MovieJSON, scalars_text, links_text, member, array_text.
  cbn [json_encode map join fst snd].
  assert (forall links : list string,
            map json_encode (map JString links) = json_appendString <$> links) as Hmap.
  { induction links as [|l links IH]; [done|]. cbn [map json_encode fmap list_fmap].
    f_equal. apply IH. }
  destruct (MovieJSON_SDownloadLink v) as [links|]; cbn [json_encode];
    rewrite ?Hmap, !string_app_assoc; reflexivity.
Qed.

Lemma MarshalJSON_text (m : Movie) (u : URL) (us : list URL) :
  DownloadLink m = Some u -> SDownloadLink m = Some <$> us ->
  MarshalJSON m
  = Returns (scalars_text m
             +:+ links_text (json_appendString (URL_text u))
                   (match us with
                    | [] => "null"
                    | _ => array_text (json_appendString <$> (URL_text <$> us))
                    end), None).
Proof.
  intros Hu Hus. rewrite (MarshalJSON_ok m u us Hu Hus), MovieJSON_text.
  by destruct us.
Qed.

(** C9. [MarshalJSON] calls [String] on [DownloadLink] and on every element
    of [SDownloadLink] without a nil check: with a nil [DownloadLink], or a
    nil element, it panics with the nil-dereference run-time error; it
    returns (and then with a nil error, never an error value) exactly when
    [DownloadLink] and all elements of [SDownloadLink] are non-nil. *)
Theorem MarshalJSON_nil_link_panics (m : Movie) :
  (DownloadLink m = None -> MarshalJSON m = Panics nil_dereference)
  /\ (None ∈ SDownloadLink m -> MarshalJSON m = Panics nil_dereference)
  /\ ((exists out : string * error, MarshalJSON m = Returns out)
      <-> DownloadLink m <> None /\ None ∉ SDownloadLink m)
  /\ (forall (text : string) (err : error),
        MarshalJSON m = Returns (text, err) -> err = None)
  /\ (forall code : Z, MarshalJSON m <> Exits code).
Proof.
  assert (None ∈ SDownloadLink m -> MarshalJSON m = Panics nil_dereference) as Hnil.
  { intros Hin. unfold MarshalJSON. by rewrite MarshalJSON_loop_nil. }
  assert (DownloadLink m = None -> MarshalJSON m = Panics nil_dereference) as Hdl.
  { intros Hu. destruct (links_cases (SDownloadLink m)) as [[us Hus]|Hin]; [|by apply Hnil].
    unfold MarshalJSON. by rewrite Hus, MarshalJSON_loop_links, Hu. }
  split_and!; try done.
  - split.
    + intros [out Hout]. split.
      * intros Hu. by rewrite (Hdl Hu) in Hout.
      * intros Hin. by rewrite (Hnil Hin) in Hout.
    + intros [Hu Hin]. destruct (DownloadLink m) as [u|] eqn:Hdl'; [|done].
      destruct (links_cases (SDownloadLink m)) as [[us Hus]|Hin']; [|done].
      eexists. by apply (MarshalJSON_ok m u us).
  - intros text err Hret. destruct (DownloadLink m) as [u|] eqn:Hdl'.
    + destruct (links_cases (SDownloadLink m)) as [[us Hus]|Hin'].
      * rewrite (MarshalJSON_ok m u us Hdl' Hus) in Hret. congruence.
      * by rewrite (Hnil Hin') in Hret.
    + by rewrite Hdl in Hret.
  - intros code Hex. destruct (DownloadLink m) as [u|] eqn:Hdl'.
    + destruct (links_cases (SDownloadLink m)) as [[us Hus]|Hin'].
      * by rewrite (MarshalJSON_ok m u us Hdl' Hus) in Hex.
      * by rewrite (Hnil Hin') in Hex.
    + by rewrite Hdl in Hex.
Qed.

Example MarshalJSON_examples :
  MarshalJSON Movie_zero = Panics nil_dereference
  /\ MarshalJSON (mkMovie 0 "t" "" "" "" (Some (mkURL "a")) 0 true [Some (mkURL "b"); None] "" "")
     = Panics nil_dereference
  /\ MarshalJSON (mkMovie 7 "t" "" "" "" (Some (mkURL "a")) 2020 true [Some (mkURL "b")] "" "")
     = Returns (scalars_text (mkMovie 7 "t" "" "" "" (Some (mkURL "a")) 2020 true
                                [Some (mkURL "b")] "" "")
                +:+ links_text (json_appendString "a") (array_text [json_appendString "b"]),
                None).
Proof. repeat split; vm_compute; reflexivity. Qed.

(** C5, as the code has it.  For a movie whose links are all non-nil,
    [MarshalJSON] returns the text of one JSON object: the nine scalar
    members of [Movie], then ["DownloadLink"] as a JSON string holding the
    link's URL text (no nested object), then ["SDownloadLink"].  The latter
    is always present: it is the array of the URL texts, in order, when
    [m.SDownloadLink] has elements, and [null] when it has none; [IsSeries]
    plays no part in it.  The first conjunct gives the text, the others
    read the object it denotes. *)
Theorem MarshalJSON_renders_links (m : Movie) (u : URL) (us : list URL) :
  DownloadLink m = Some u -> SDownloadLink m = Some <$> us ->
  exists fields : list (string * JSON),
    MarshalJSON m = Returns (json_encode (JObject fields), None)
    /\ json_encode (JObject fields)
       = scalars_text m
         +:+ links_text (json_appendString (URL_text u))
               (match us with
                | [] => "null"
                | _ => array_text (json_appendString <$> (URL_text <$> us))
                end)
    /\ fields.*1 = ["Index"; "Title"; "CoverPhotoLink"; "Description"; "Size"; "Year";
                    "IsSeries"; "UploadDate"; "Source"; "DownloadLink"; "SDownloadLink"]
    /\ json_field "DownloadLink" (JObject fields) = Some (JString (URL_text u))
    /\ json_field "SDownloadLink" (JObject fields)
       = Some (match us with
               | [] => JNull
               | _ => JArray (JString <$> (URL_text <$> us))
               end)
    /\ json_field "Index" (JObject fields) = Some (JNumber (Index m))
    /\ json_field "Title" (JObject fields) = Some (JString (Title m))
    /\ json_field "CoverPhotoLink" (JObject fields) = Some (JString (CoverPhotoLink m))
    /\ json_field "Description" (JObject fields) = Some (JString (Description m))
    /\ json_field "Size" (JObject fields) = Some (JString (Size m))
    /\ json_field "Year" (JObject fields) = Some (JNumber (Year m))
    /\ json_field "IsSeries" (JObject fields) = Some (JBool (IsSeries m))
    /\ json_field "UploadDate" (JObject fields) = Some (JString (UploadDate m))
    /\ json_field "Source" (JObject fields) = Some (JString (Source m)).
Proof.
  intros Hu Hus. eexists. split; [by apply (MarshalJSON_ok m u us)|].
  split.
  { change (JObject _) with (json_of_MovieJSON (MovieJSON_of m u us)).
    rewrite MovieJSON_text. by destruct us. }
  split_and!; try reflexivity. by destruct us.
Qed.

Lemma MarshalJSON_renders_links_witness :
  exists fields : list (string * JSON),
    MarshalJSON sample_series = Returns (json_encode (JObject fields), None)
    /\ json_field "DownloadLink" (JObject fields)
       = Some (JString "http://example.com/dark?s=1&e=1")
    /\ json_field "SDownloadLink" (JObject fields)
       = Some (JArray [JString "http://example.com/dark?s=1&e=1";
                       JString "http://example.com/dark?s=1&e=2"]).
Proof.
  destruct (MarshalJSON_renders_links sample_series
              (mkURL "http://example.com/dark?s=1&e=1")
              [mkURL "http://example.com/dark?s=1&e=1";
               mkURL "http://example.com/dark?s=1&e=2"] eq_refl eq_refl)
    as (fields & Hret & _ & _ & Hdl & Hsdl & _).
  exists fields. split; [exact Hret|]. split; [exact Hdl|exact Hsdl].
Defined.

(** C5 as stated fails on a film that is not a series and has no series
    links: the object still has the member ["SDownloadLink"], and its value
    is [null], which is neither left out nor an empty array; the text ends
    in that member.  A movie that is not marked as a series but carries
    links has them all rendered. *)
Lemma MarshalJSON_not_series_null :
  IsSeries sample_film = false
  /\ MarshalJSON sample_film
     = Returns (json_encode (json_of_MovieJSON
                  (mkMovieJSON sample_film "http://example.com/the-matrix.mp4" None)), None)
  /\ json_field "SDownloadLink"
       (json_of_MovieJSON (mkMovieJSON sample_film "http://example.com/the-matrix.mp4" None))
     = Some JNull
  /\ JNull <> JArray []
  /\ ends_with (member "SDownloadLink" "null" +:+ "}")
       (json_encode (json_of_MovieJSON
          (mkMovieJSON sample_film "http://example.com/the-matrix.mp4" None)))
  /\ (exists fields : list (string * JSON),
        MarshalJSON (mkMovie 0 "t" "" "" "" (Some (mkURL "a")) 0 false [Some (mkURL "b")] "" "")
        = Returns (json_encode (JObject fields), None)
        /\ json_field "SDownloadLink" (JObject fields) = Some (JArray [JString "b"])).
Proof.
  split_and!.
  - reflexivity.
  - by apply (MarshalJSON_ok _ (mkURL "http://example.com/the-matrix.mp4") []).
  - reflexivity.
  - discriminate.
  - unfold ends_with. vm_compute. reflexivity.
  - eexists. split; [by apply (MarshalJSON_ok _ (mkURL "a") [mkURL "b"])|]. reflexivity.
Qed.

(** ** The round trip of the links *)

Lemma unquote_literals (texts : list string) :
  Forall (fun s => utf8_ValidString s = true) texts ->
  mapM json_unquote (json_appendString <$> texts) = Some texts.
Proof.
  intros Hvalid. apply mapM_Some.
  induction Hvalid as [|s texts Hs Hvalid IH]; constructor; [|done].
  by apply json_unquote_appendString.
Qed.

(** C6, as the code has it.  Take a movie with a non-nil [DownloadLink] and
    a non-empty [SDownloadLink] of non-nil links, all of whose URL texts are
    valid UTF-8.  The document [MarshalJSON] returns ends in the members
    ["DownloadLink"] and ["SDownloadLink"]; decoding the string literal of
    the first gives the link's URL text, and decoding the literals of the
    array gives the URL texts of the series links, byte for byte and in the
    same order. *)
Theorem MarshalJSON_round_trip (m : Movie) (u : URL) (us : list URL) :
  DownloadLink m = Some u -> SDownloadLink m = Some <$> us -> us <> [] ->
  utf8_ValidString (URL_text u) = true ->
  Forall (fun x => utf8_ValidString (URL_text x) = true) us ->
  MarshalJSON m
  = Returns (scalars_text m
             +:+ links_text (json_appendString (URL_text u))
                   (array_text (json_appendString <$> (URL_text <$> us))), None)
  /\ json_unquote (json_appendString (URL_text u)) = Some (URL_text u)
  /\ mapM json_unquote (json_appendString <$> (URL_text <$> us))
     = Some (URL_text <$> us).
Proof.
  intros Hu Hus Hne Hvu Hvus. split_and!.
  - rewrite (MarshalJSON_text m u us Hu Hus). by destruct us.
  - by apply json_unquote_appendString.
  - apply unquote_literals. by apply Forall_fmap.
Qed.

Lemma MarshalJSON_round_trip_witness :
  MarshalJSON sample_series
  = Returns (scalars_text sample_series
             +:+ links_text (json_appendString "http://example.com/dark?s=1&e=1")
                   (array_text [json_appendString "http://example.com/dark?s=1&e=1";
                                json_appendString "http://example.com/dark?s=1&e=2"]),
             None)
  /\ json_unquote (json_appendString "http://example.com/dark?s=1&e=1")
     = Some "http://example.com/dark?s=1&e=1"
  /\ mapM json_unquote [json_appendString "http://example.com/dark?s=1&e=1";
                        json_appendString "http://example.com/dark?s=1&e=2"]
     = Some ["http://example.com/dark?s=1&e=1"; "http://example.com/dark?s=1&e=2"].
Proof.
  apply (MarshalJSON_round_trip sample_series
           (mkURL "http://example.com/dark?s=1&e=1")
           [mkURL "http://example.com/dark?s=1&e=1";
            mkURL "http://example.com/dark?s=1&e=2"]).
  - reflexivity.
  - reflexivity.
  - discriminate.
  - vm_compute. reflexivity.
  - repeat constructor.
Defined.

(** C6 as stated fails on a link whose URL text is not valid UTF-8: for the
    byte 0xFF the encoder writes the escape of U+FFFD, which the decoder
    turns into the three bytes of U+FFFD.  Neither the literal of
    ["DownloadLink"] nor the one in ["SDownloadLink"] decodes to the
    original text. *)
Lemma MarshalJSON_round_trip_latin1 :
  DownloadLink sample_latin1 = Some latin1_link
  /\ SDownloadLink sample_latin1 = [Some latin1_link]
  /\ MarshalJSON sample_latin1
     = Returns (scalars_text sample_latin1
                +:+ links_text (json_appendString (URL_text latin1_link))
                      (array_text [json_appendString (URL_text latin1_link)]), None)
  /\ json_appendString (URL_text latin1_link)
     = String dquote ("http://example.com/get?name=\ufffd" +:+ String dquote EmptyString)
  /\ json_unquote (json_appendString (URL_text latin1_link))
     = Some ("http://example.com/get?name="
             +:+ String (ascii_of_nat 239)
                   (String (ascii_of_nat 191) (String (ascii_of_nat 189) EmptyString)))
  /\ json_unquote (json_appendString (URL_text latin1_link)) <> Some (URL_text latin1_link)
  /\ mapM json_unquote [json_appendString (URL_text latin1_link)]
     <> Some [URL_text latin1_link].
Proof.
  split_and!.
  - reflexivity.
  - reflexivity.
  - by apply (MarshalJSON_text _ latin1_link [latin1_link]).
  - vm_compute. reflexivity.
  - vm_compute. reflexivity.
  - vm_compute. discriminate.
  - vm_compute. discriminate.
Qed.

(* ================================================================== *)
(** * Part III. Further properties of the package                      *)
(* ================================================================== *)

(** ** Lookups and the list of titles *)

Lemma GetMovieByTitle_loop_listed (movies : list Movie) (t : string) :
  is_Some (GetMovieByTitle_loop movies t) <-> t ∈ map Title movies.
Proof.
  induction movies as [|movie rest IH]; simpl.
  - split; [by intros [? ?]|]. by intros ?%elem_of_nil.
  - destruct (String.eqb_spec (Title movie) t) as [->|Hne].
    + split; [intros _; by left|by eauto].
    + rewrite IH, elem_of_cons. split; [by right|]. by intros [?|?].
Qed.

Lemma GetIndexFromTitle_loop_listed (movies : list Movie) (t : string) : forall index,
  is_Some (GetIndexFromTitle_loop index movies t) <-> t ∈ map Title movies.
Proof.
  induction movies as [|movie rest IH]; intros index; simpl.
  - split; [by intros [? ?]|]. by intros ?%elem_of_nil.
  - destruct (String.eqb_spec (Title movie) t) as [->|Hne].
    + split; [intros _; by left|by eauto].
    + rewrite IH, elem_of_cons. split; [by right|]. by intros [?|?].
Qed.

Lemma not_found_iff_unlisted (s : SearchResult) (t : string) :
  (snd (GetMovieByTitle s t) = None <-> t ∈ Titles s)
  /\ (snd (GetIndexFromTitle s t) = None <-> t ∈ Titles s).
Proof.
  rewrite Titles_map. unfold GetMovieByTitle, GetIndexFromTitle. split.
  - rewrite <- GetMovieByTitle_loop_listed.
    destruct (GetMovieByTitle_loop (Movies s) t); simpl;
      split; first [done | by eauto | by intros [? ?]].
  - rewrite <- (GetIndexFromTitle_loop_listed _ _ 0).
    destruct (GetIndexFromTitle_loop 0 (Movies s) t); simpl;
      split; first [done | by eauto | by intros [? ?]].
Qed.

Lemma lookups_found (s : SearchResult) (t : string) :
  t ∈ Titles s ->
  exists (i : nat) (m : Movie),
    first_match (Movies s) t i m
    /\ GetIndexFromTitle s t = (Z.of_nat i, None)
    /\ GetMovieByTitle s t = (m, None).
Proof.
  intros Hin. rewrite Titles_map in Hin.
  apply (GetIndexFromTitle_loop_listed _ _ 0) in Hin as [k Hk].
  unfold GetIndexFromTitle, GetMovieByTitle. rewrite Hk.
  apply GetIndexFromTitle_loop_Some in Hk as (i & m & -> & Hfm).
  exists i, m. split; [done|]. split; [done|].
  assert (GetMovieByTitle_loop (Movies s) t = Some m) as ->; [|done].
  apply GetMovieByTitle_loop_Some. by exists i.
Qed.

Lemma lookups_not_found (s : SearchResult) (t : string) :
  t ∉ Titles s ->
  GetIndexFromTitle s t = (0, Some "Movie not Found")
  /\ GetMovieByTitle s t = (Movie_zero, Some "Movie not Found").
Proof.
  intros Hin. rewrite Titles_map in Hin.
  unfold GetIndexFromTitle, GetMovieByTitle.
  destruct (GetIndexFromTitle_loop 0 (Movies s) t) as [k|] eqn:Hk.
  { destruct Hin. apply (GetIndexFromTitle_loop_listed _ _ 0). by rewrite Hk. }
  destruct (GetMovieByTitle_loop (Movies s) t) as [m|] eqn:Hm.
  { destruct Hin. apply GetMovieByTitle_loop_listed. by rewrite Hm. }
  done.
Qed.

(** X1. Both lookups succeed exactly for the titles that [Titles] lists.
    For such a title the index returned is the first position at which
    [Titles] has it, and the movie returned carries it. *)
Theorem lookups_succeed_iff_listed (s : SearchResult) (t : string) :
  (snd (GetMovieByTitle s t) = None <-> t ∈ Titles s)
  /\ (snd (GetIndexFromTitle s t) = None <-> t ∈ Titles s)
  /\ (t ∈ Titles s ->
      Titles s !! Z.to_nat (fst (GetIndexFromTitle s t)) = Some t
      /\ (forall j : nat,
            (j < Z.to_nat (fst (GetIndexFromTitle s t)))%nat -> Titles s !! j <> Some t)
      /\ Title (fst (GetMovieByTitle s t)) = t).
Proof.
  destruct (not_found_iff_unlisted s t) as [Hm Hi].
  split; [done|]. split; [done|]. intros Hin.
  destruct (lookups_found s t Hin) as (i & m & (Hi' & Ht & Hmin) & -> & ->). simpl.
  rewrite Nat2Z.id, Titles_map. change (map Title (Movies s)) with (Title <$> Movies s).
  split_and!.
  - by rewrite list_lookup_fmap, Hi', <- Ht.
  - intros j Hj. rewrite list_lookup_fmap.
    destruct (Movies s !! j) as [m'|] eqn:Hm'; simpl; [|done].
    intros [= Heq]. by apply (Hmin j m').
  - done.
Qed.

(** X2. Looking a movie of the result up by its own title always succeeds,
    and returns a movie of that title at a position that is not after the
    movie's own.  When the titles of the result are pairwise distinct, the
    lookup returns that very movie and its position. *)
Theorem lookup_own_title (s : SearchResult) (i : nat) (m : Movie) :
  Movies s !! i = Some m ->
  exists (j : nat) (m' : Movie),
    GetIndexFromTitle s (Title m) = (Z.of_nat j, None)
    /\ GetMovieByTitle s (Title m) = (m', None)
    /\ (j <= i)%nat
    /\ Movies s !! j = Some m'
    /\ Title m' = Title m
    /\ (NoDup (Titles s) -> j = i /\ m' = m).
Proof.
  intros Hi.
  assert (Title m ∈ Titles s) as Hin.
  { rewrite Titles_map. change (map Title (Movies s)) with (Title <$> Movies s).
    apply list_elem_of_fmap. exists m. split; [done|]. by apply (list_elem_of_lookup_2 _ i). }
  destruct (lookups_found s _ Hin) as (j & m' & (Hj & Ht & Hmin) & Hidx & Hmov).
  exists j, m'. split_and!; try done.
  - destruct (le_lt_dec j i) as [Hle|Hlt]; [done|]. by destruct (Hmin i m Hlt Hi).
  - intros Hnodup. rewrite Titles_map in Hnodup.
    change (map Title (Movies s)) with (Title <$> Movies s) in Hnodup.
    assert (j = i) as ->.
    { apply (NoDup_lookup _ _ _ (Title m) Hnodup); rewrite list_lookup_fmap.
      - by rewrite Hj, <- Ht.
      - by rewrite Hi. }
    split; [done|congruence].
Qed.

Lemma lookup_own_title_witness :
  exists (j : nat) (m' : Movie),
    GetIndexFromTitle sample_result "Dark" = (Z.of_nat j, None)
    /\ GetMovieByTitle sample_result "Dark" = (m', None)
    /\ (j <= 2)%nat.
Proof.
  destruct (lookup_own_title sample_result 2 sample_series eq_refl)
    as (j & m' & Hidx & Hmov & Hle & _).
  exists j, m'. split; [exact Hidx|]. split; [exact Hmov|exact Hle].
Defined.

(** X3. The integer [GetIndexFromTitle] returns is never negative, and for a
    result that has movies it is a position of the result, whether the title
    was found or not; for a result without movies it is 0, which is no
    position. *)
Theorem GetIndexFromTitle_in_range (s : SearchResult) (t : string) :
  0 <= fst (GetIndexFromTitle s t)
  /\ (Movies s <> [] ->
      fst (GetIndexFromTitle s t) < Z.of_nat (length (Movies s))
      /\ is_Some (Movies s !! Z.to_nat (fst (GetIndexFromTitle s t))))
  /\ (Movies s = [] ->
      fst (GetIndexFromTitle s t) = 0
      /\ Movies s !! Z.to_nat (fst (GetIndexFromTitle s t)) = None).
Proof.
  destruct (decide (t ∈ Titles s)) as [Hin|Hin].
  - destruct (lookups_found s t Hin) as (i & m & (Hi & _) & -> & _). simpl.
    pose proof (lookup_lt_Some _ _ _ Hi) as Hlt. rewrite Nat2Z.id.
    split; [lia|]. split.
    + intros _. split; [lia|by eauto].
    + intros Hnil. by rewrite Hnil in Hi.
  - destruct (lookups_not_found s t Hin) as [-> _]. simpl.
    split; [done|]. split.
    + intros Hne. destruct (Movies s) as [|m rest]; [done|]. simpl. split; [lia|by eauto].
    + by intros ->.
Qed.

Lemma GetMovieByTitle_loop_app (a b : list Movie) (t : string) :
  GetMovieByTitle_loop (a ++ b) t
  = match GetMovieByTitle_loop a t with
    | Some m => Some m
    | None => GetMovieByTitle_loop b t
    end.
Proof.
  induction a as [|movie rest IH]; simpl; [done|].
  by destruct (String.eqb (Title movie) t).
Qed.

Lemma GetIndexFromTitle_loop_app (a b : list Movie) (t : string) : forall index,
  GetIndexFromTitle_loop index (a ++ b) t
  = match GetIndexFromTitle_loop index a t with
    | Some k => Some k
    | None => GetIndexFromTitle_loop (index + Z.of_nat (length a)) b t
    end.
Proof.
  induction a as [|movie rest IH]; intros index.
  - simpl. by rewrite Z.add_0_r.
  - cbn [app GetIndexFromTitle_loop length].
    destruct (String.eqb (Title movie) t); [done|].
    rewrite IH. replace (index + 1 + Z.of_nat (length rest))
      with (index + Z.of_nat (S (length rest))) by lia. done.
Qed.

(** X4. Lookups in a result whose movies are those of [a] followed by those
    of [b]: [Titles] is the titles of [a] followed by those of [b]; a title
    that [a] lists is looked up in [a] alone; any other title is looked up
    in [b], and an index found there is shifted by the number of movies of
    [a]. *)
Theorem lookups_over_append (q : string) (a b : list Movie) (t : string) :
  Titles (mkSearchResult q (a ++ b))
  = Titles (mkSearchResult q a) ++ Titles (mkSearchResult q b)
  /\ GetMovieByTitle (mkSearchResult q (a ++ b)) t
     = (if decide (t ∈ Titles (mkSearchResult q a))
        then GetMovieByTitle (mkSearchResult q a) t
        else GetMovieByTitle (mkSearchResult q b) t)
  /\ GetIndexFromTitle (mkSearchResult q (a ++ b)) t
     = (if decide (t ∈ Titles (mkSearchResult q a))
        then GetIndexFromTitle (mkSearchResult q a) t
        else if decide (t ∈ Titles (mkSearchResult q b))
        then (Z.of_nat (length a) + fst (GetIndexFromTitle (mkSearchResult q b) t), None)
        else (0, Some "Movie not Found")).
Proof.
  split; [by rewrite !Titles_map; simpl; rewrite map_app|].
  destruct (decide (t ∈ Titles (mkSearchResult q a))) as [Ha|Ha].
  - destruct (lookups_found _ t Ha) as (i & m & Hfm & Hidx & Hmov).
    rewrite Hidx, Hmov. unfold GetMovieByTitle, GetIndexFromTitle in *. simpl in *.
    rewrite GetMovieByTitle_loop_app, GetIndexFromTitle_loop_app.
    destruct (GetMovieByTitle_loop a t); [|done].
    destruct (GetIndexFromTitle_loop 0 a t); [|done]. done.
  - destruct (lookups_not_found _ t Ha) as [Hidx Hmov].
    unfold GetMovieByTitle, GetIndexFromTitle in *. simpl in *.
    rewrite GetMovieByTitle_loop_app, GetIndexFromTitle_loop_app.
    destruct (GetMovieByTitle_loop a t); [done|].
    destruct (GetIndexFromTitle_loop 0 a t); [done|]. split; [done|].
    rewrite GetIndexFromTitle_loop_shift.
    destruct (decide (t ∈ Titles (mkSearchResult q b))) as [Hb|Hb].
    + destruct (lookups_found _ t Hb) as (j & m & _ & Hidx' & _).
      unfold GetIndexFromTitle in Hidx'. simpl in Hidx'.
      destruct (GetIndexFromTitle_loop 0 b t) as [k|]; [|done].
      simpl. by simplify_eq.
    + destruct (lookups_not_found _ t Hb) as [Hidx' _].
      unfold GetIndexFromTitle in Hidx'. simpl in Hidx'.
      by destruct (GetIndexFromTitle_loop 0 b t).
Qed.

(** ** [Movie.String] *)

Lemma has_char_app (c : ascii) (a b : string) :
  has_char c (a +:+ b) = has_char c a || has_char c b.
Proof.
  induction a as [|x a IH]; [done|].
  rewrite string_app_cons. simpl. by rewrite IH, orb_assoc.
Qed.

Lemma digits_value_chars (c : ascii) (s : string) (n : Z) :
  digits_value s n -> ~ 48 <= byte c <= 57 -> has_char c s = false.
Proof.
  intros Hs Hc. induction Hs as [d Hd|s n d Hs IH Hd].
  - simpl. destruct (Ascii.eqb_spec d c) as [->|]; [done|done].
  - rewrite has_char_app, IH. simpl.
    destruct (Ascii.eqb_spec d c) as [->|]; [done|done].
Qed.

Lemma Itoa_no_paren (i : Z) : has_char "(" (strconv_Itoa i) = false.
Proof.
  assert (~ 48 <= byte "(" <= 57) as Hc by (change (byte "(") with 40; lia).
  unfold strconv_Itoa. destruct (i <? 0) eqn:Hneg.
  - apply Z.ltb_lt in Hneg. simpl.
    apply (digits_value_chars _ _ (- i)); [|done]. apply FormatUint_digits. lia.
  - apply Z.ltb_ge in Hneg.
    apply (digits_value_chars _ _ i); [|done]. by apply FormatUint_digits.
Qed.

Lemma FormatUint_inj (n k : Z) : 0 <= n -> 0 <= k -> FormatUint n = FormatUint k -> n = k.
Proof.
  intros Hn Hk Heq.
  pose proof (Atoi_fast_loop_complete _ _ (FormatUint_digits n Hn)) as H1.
  pose proof (Atoi_fast_loop_complete _ _ (FormatUint_digits k Hk)) as H2.
  rewrite Heq in H1. congruence.
Qed.

Lemma FormatUint_no_sign (n : Z) (rest : string) :
  0 <= n -> FormatUint n <> String "-" rest.
Proof.
  intros Hn Heq.
  destruct (digits_value_nonempty _ _ (FormatUint_digits n Hn)) as (c & r & Hc & Hd).
  rewrite Heq in Hc. injection Hc as <- _. change (byte "-") with 45 in Hd. lia.
Qed.

Lemma Itoa_inj (i j : Z) : strconv_Itoa i = strconv_Itoa j -> i = j.
Proof.
  unfold strconv_Itoa.
  destruct (i <? 0) eqn:Hi; destruct (j <? 0) eqn:Hj;
    try apply Z.ltb_lt in Hi; try apply Z.ltb_lt in Hj;
    try apply Z.ltb_ge in Hi; try apply Z.ltb_ge in Hj; intros Heq.
  - injection Heq as Heq. apply FormatUint_inj in Heq; lia.
  - symmetry in Heq. by apply FormatUint_no_sign in Heq.
  - by apply FormatUint_no_sign in Heq.
  - by apply FormatUint_inj.
Qed.

Lemma string_snoc_inj (x y : string) (c : ascii) :
  x +:+ String c EmptyString = y +:+ String c EmptyString -> x = y.
Proof.
  revert y. induction x as [|a x IH]; intros [|b y]; rewrite ?string_app_cons; intros Heq.
  - done.
  - injection Heq as _ Heq. by destruct y.
  - injection Heq as _ Heq. by destruct x.
  - injection Heq as -> Heq. f_equal. by apply IH.
Qed.

Lemma Movie_String_text (m : Movie) :
  Movie_String m = Title m +:+ " (" +:+ strconv_Itoa (Year m) +:+ ")".
Proof. reflexivity. Qed.

(** The last [" ("] of the text separates the title from the year. *)
Lemma title_year_split (a b x y : string) :
  has_char "(" x = false -> has_char "(" y = false ->
  a +:+ " (" +:+ x +:+ ")" = b +:+ " (" +:+ y +:+ ")" ->
  a = b /\ x = y.
Proof.
  intros Hx Hy. revert b.
  assert (forall (r u v : string),
            has_char "(" u = false -> u +:+ ")" <> r +:+ " (" +:+ v +:+ ")") as Hno.
  { intros r u v Hu Heq. apply (f_equal (has_char "(")) in Heq.
    rewrite !has_char_app, Hu in Heq. simpl in Heq.
    by rewrite orb_true_r in Heq. }
  induction a as [|c a IH]; intros [|d b]; rewrite ?string_app_cons; intros Heq.
  - split; [done|]. injection Heq as Heq. by apply string_snoc_inj in Heq.
  - injection Heq as <- Heq. destruct b as [|e b].
    + by injection Heq.
    + rewrite string_app_cons in Heq. injection Heq as <- Heq. by apply Hno in Heq.
  - injection Heq as -> Heq. destruct a as [|e a].
    + by injection Heq.
    + rewrite string_app_cons in Heq. injection Heq as -> Heq.
      symmetry in Heq. by apply Hno in Heq.
  - injection Heq as -> Heq. destruct (IH _ Heq) as [-> ->]. done.
Qed.

(** X5. [String] renders a movie as its title followed by the year in
    decimal between parentheses (["(0)"] for a movie without a year).  The
    text tells title and year: two movies have the same text exactly when
    they have the same title and the same year, whatever the title holds. *)
Theorem Movie_String_determines (m1 m2 : Movie) :
  Movie_String m1 = Title m1 +:+ " (" +:+ strconv_Itoa (Year m1) +:+ ")"
  /\ (Year m1 = 0 -> Movie_String m1 = Title m1 +:+ " (0)")
  /\ (Movie_String m1 = Movie_String m2 <-> Title m1 = Title m2 /\ Year m1 = Year m2).
Proof.
  split; [apply Movie_String_text|]. split.
  - intros Hy. by rewrite Movie_String_text, Hy.
  - rewrite !Movie_String_text. split.
    + intros Heq. apply title_year_split in Heq as [Ht Hy]; try apply Itoa_no_paren.
      split; [done|]. by apply Itoa_inj.
    + by intros [-> ->].
Qed.

(** ** [Props.MarshalJSON] *)

Lemma Props_MarshalJSON_ok (p : Props) (b s l : URL) :
  BaseURL p = Some b -> SearchURL p = Some s -> ListURL p = Some l ->
  Props_MarshalJSON p
  = Returns (json_encode (json_of_PropsJSON
               (mkPropsJSON p (URL_text b) (URL_text s) (URL_text l))), None).
Proof. intros Hb Hs Hl. unfold Props_MarshalJSON. by rewrite Hb, Hs, Hl. Qed.

Lemma Props_MarshalJSON_nil (p : Props) :
  BaseURL p = None \/ SearchURL p = None \/ ListURL p = None ->
  Props_MarshalJSON p = Panics nil_dereference.
Proof.
  unfold Props_MarshalJSON.
  destruct (BaseURL p) as [b|], (SearchURL p) as [s|], (ListURL p) as [l|];
    intros [?|[?|?]]; done.
Qed.

Lemma PropsJSON_text (v : PropsJSON) :
  json_encode (json_of_PropsJSON v)
  = props_text (PropsJSON_Props v) (json_appendString (PropsJSON_BaseURL v))
      (json_appendString (PropsJSON_SearchURL v)) (json_appendString (PropsJSON_ListURL v)).
Proof.
  unfold json_of_PropsJSON, props_text, member.
  cbn [json_encode map join fst snd]. rewrite !string_app_assoc. reflexivity.
Qed.

(** X6. [Props.MarshalJSON] calls [String] on the three locators without a
    nil check: it panics with the nil-dereference run-time error exactly
    when one of [BaseURL], [SearchURL], [ListURL] is nil, and returns, with
    a nil error, exactly when none is.  It never returns an error value. *)
Theorem Props_MarshalJSON_nil_panics (p : Props) :
  (Props_MarshalJSON p = Panics nil_dereference
   <-> BaseURL p = None \/ SearchURL p = None \/ ListURL p = None)
  /\ ((exists text : string, Props_MarshalJSON p = Returns (text, None))
      <-> BaseURL p <> None /\ SearchURL p <> None /\ ListURL p <> None)
  /\ (forall (text : string) (err : error),
        Props_MarshalJSON p = Returns (text, err) -> err = None)
  /\ (forall code : Z, Props_MarshalJSON p <> Exits code).
Proof.
  destruct (BaseURL p) as [b|] eqn:Hb; [destruct (SearchURL p) as [s|] eqn:Hs;
    [destruct (ListURL p) as [l|] eqn:Hl|]|].
  - rewrite (Props_MarshalJSON_ok p b s l Hb Hs Hl). split_and!.
    + split; [done|]. by intros [?|[?|?]].
    + split; [done|]. intros _. by eexists.
    + by intros text err [= _ <-].
    + done.
  - rewrite (Props_MarshalJSON_nil p) by (rewrite Hl; tauto). split_and!.
    + split; [tauto|done].
    + split; [by intros [? ?]|]. by intros (_ & _ & ?).
    + done.
    + done.
  - rewrite (Props_MarshalJSON_nil p) by (rewrite Hs; tauto). split_and!.
    + split; [tauto|done].
    + split; [by intros [? ?]|]. by intros (_ & ? & _).
    + done.
    + done.
  - rewrite (Props_MarshalJSON_nil p) by (rewrite Hb; tauto). split_and!.
    + split; [tauto|done].
    + split; [by intros [? ?]|]. by intros (? & _).
    + done.
    + done.
Qed.

(** X7. For properties whose three locators are non-nil, [Props.MarshalJSON]
    returns the text of one JSON object of five members, in this order:
    ["Name"] and ["Description"], promoted from the embedded [Props], then
    ["BaseURL"], ["SearchURL"] and ["ListURL"], each once and as a JSON
    string holding the URL text: the string fields of [PropsJSON] shadow
    the locator fields of [Props]. *)
Theorem Props_MarshalJSON_renders (p : Props) (b s l : URL) :
  BaseURL p = Some b -> SearchURL p = Some s -> ListURL p = Some l ->
  exists fields : list (string * JSON),
    Props_MarshalJSON p = Returns (json_encode (JObject fields), None)
    /\ json_encode (JObject fields)
       = props_text p (json_appendString (URL_text b)) (json_appendString (URL_text s))
           (json_appendString (URL_text l))
    /\ fields.*1 = ["Name"; "Description"; "BaseURL"; "SearchURL"; "ListURL"]
    /\ json_field "Name" (JObject fields) = Some (JString (Name p))
    /\ json_field "Description" (JObject fields) = Some (JString (Props_Description p))
    /\ json_field "BaseURL" (JObject fields) = Some (JString (URL_text b))
    /\ json_field "SearchURL" (JObject fields) = Some (JString (URL_text s))
    /\ json_field "ListURL" (JObject fields) = Some (JString (URL_text l)).
Proof.
  intros Hb Hs Hl. eexists. split; [by apply (Props_MarshalJSON_ok p b s l)|].
  split.
  { change (JObject _)
      with (json_of_PropsJSON (mkPropsJSON p (URL_text b) (URL_text s) (URL_text l))).
    by rewrite PropsJSON_text. }
  split_and!; reflexivity.
Qed.

Lemma Props_MarshalJSON_renders_witness :
  exists fields : list (string * JSON),
    Props_MarshalJSON sample_props = Returns (json_encode (JObject fields), None)
    /\ fields.*1 = ["Name"; "Description"; "BaseURL"; "SearchURL"; "ListURL"]
    /\ json_field "SearchURL" (JObject fields)
       = Some (JString "http://example.com/search?q=a&b").
Proof.
  destruct (Props_MarshalJSON_renders sample_props (mkURL "http://example.com")
              (mkURL "http://example.com/search?q=a&b")
              (mkURL "http://example.com/movies/") eq_refl eq_refl eq_refl)
    as (fields & Hret & _ & Hnames & _ & _ & _ & Hs & _).
  exists fields. split; [exact Hret|]. split; [exact Hnames|exact Hs].
Defined.

(** X8. Take properties with non-nil locators, whose name, description and
    URL texts are valid UTF-8.  The document [Props.MarshalJSON] returns is
    made of five string literals, and decoding each of them gives the field
    it was written from, byte for byte (characters such as [<] and [&],
    which the encoder escapes, included). *)
Theorem Props_MarshalJSON_round_trip (p : Props) (b s l : URL) :
  BaseURL p = Some b -> SearchURL p = Some s -> ListURL p = Some l ->
  utf8_ValidString (Name p) = true ->
  utf8_ValidString (Props_Description p) = true ->
  utf8_ValidString (URL_text b) = true ->
  utf8_ValidString (URL_text s) = true ->
  utf8_ValidString (URL_text l) = true ->
  exists name description base search list : string,
    Props_MarshalJSON p
    = Returns ("{" +:+ member "Name" name +:+ ","
               +:+ member "Description" description +:+ ","
               +:+ member "BaseURL" base +:+ ","
               +:+ member "SearchURL" search +:+ ","
               +:+ member "ListURL" list +:+ "}", None)
    /\ json_unquote name = Some (Name p)
    /\ json_unquote description = Some (Props_Description p)
    /\ json_unquote base = Some (URL_text b)
    /\ json_unquote search = Some (URL_text s)
    /\ json_unquote list = Some (URL_text l).
Proof.
  intros Hb Hs Hl Hvn Hvd Hvb Hvs Hvl.
  exists (json_appendString (Name p)), (json_appendString (Props_Description p)),
    (json_appendString (URL_text b)), (json_appendString (URL_text s)),
    (json_appendString (URL_text l)).
  split.
  { rewrite (Props_MarshalJSON_ok p b s l Hb Hs Hl), PropsJSON_text. reflexivity. }
  split_and!; by apply json_unquote_appendString.
Qed.

Lemma Props_MarshalJSON_round_trip_witness :
  exists name description base search list : string,
    Props_MarshalJSON sample_props
    = Returns ("{" +:+ member "Name" name +:+ ","
               +:+ member "Description" description +:+ ","
               +:+ member "BaseURL" base +:+ ","
               +:+ member "SearchURL" search +:+ ","
               +:+ member "ListURL" list +:+ "}", None)
    /\ json_unquote description = Some "A <sample> site"
    /\ json_unquote search = Some "http://example.com/search?q=a&b".
Proof.
  destruct (Props_MarshalJSON_round_trip sample_props (mkURL "http://example.com")
              (mkURL "http://example.com/search?q=a&b")
              (mkURL "http://example.com/movies/") eq_refl eq_refl eq_refl
              ltac:(vm_compute; reflexivity) ltac:(vm_compute; reflexivity)
              ltac:(vm_compute; reflexivity) ltac:(vm_compute; reflexivity)
              ltac:(vm_compute; reflexivity))
    as (name & description & base & search & list & Hret & _ & Hd & _ & Hs & _).
  exists name, description, base, search, list.
  split; [exact Hret|]. split; [exact Hd|exact Hs].
Defined.

(** The text of the sample: [<], [>] and [&] are written as escapes. *)
Example Props_MarshalJSON_sample :
  Props_MarshalJSON sample_props
  = Returns ("{" +:+ member "Name" (String dquote ("Sample" +:+ String dquote EmptyString))
             +:+ ","
             +:+ member "Description"
                   (String dquote ("A \u003csample\u003e site" +:+ String dquote EmptyString))
             +:+ ","
             +:+ member "BaseURL"
                   (String dquote ("http://example.com" +:+ String dquote EmptyString))
             +:+ ","
             +:+ member "SearchURL"
                   (String dquote ("http://example.com/search?q=a\u0026b"
                                   +:+ String dquote EmptyString))
             +:+ ","
             +:+ member "ListURL"
                   (String dquote ("http://example.com/movies/" +:+ String dquote EmptyString))
             +:+ "}", None)
  /\ Props_MarshalJSON (mkProps "n" None (Some (mkURL "s")) (Some (mkURL "l")) "d")
     = Panics nil_dereference.
Proof. split; vm_compute; reflexivity. Qed.

(** ** [GetEngine] and the store *)

Lemma builds_registry_size (h : store) (m : loc) (h' : store) :
  builds_registry h m h' -> size h' = (size h + 3)%nat.
Proof.
  intros (p & q & Hm & Hp & Hq & Hmp & Hmq & Hpq & ->).
  rewrite !map_size_insert_None; [lia|done|..].
  - by rewrite lookup_insert_ne.
  - by rewrite !lookup_insert_ne.
Qed.

Lemma builds_registry_frame (h : store) (m : loc) (h' : store) (l : loc) (o : object) :
  builds_registry h m h' -> h !! l = Some o -> h' !! l = Some o.
Proof.
  intros Hb Hl.
  destruct Hb as (p & q & Hm & Hp & Hq & _ & _ & _ & ->).
  rewrite !lookup_insert_ne by congruence. done.
Qed.

Section GetEngineStore.

Variable unicode_lower : string -> string.

Lemma GetEngine_store (engine : string) (h : store) :
  snd (GetEngine unicode_lower engine h) = snd (GetEngines h).
Proof.
  unfold GetEngine, St_bind, map_index.
  destruct (GetEngines_run h) as (m & h' & -> & Hb).
  destruct (builds_registry_lookup _ _ _ Hb) as (p & q & _ & _ & _ & _ & _ & -> & _).
  by destruct (default None _).
Qed.

Lemma GetEngine_Some (engine : string) (h : store) (e : engine_ref) :
  fst (fst (GetEngine unicode_lower engine h)) = Some e ->
  h !! ptr e = None
  /\ snd (GetEngine unicode_lower engine h) !! ptr e = Some (EngineObj (dyn_type e)).
Proof.
  rewrite GetEngine_store, GetEngine_run. unfold registry_of.
  destruct (GetEngines_run h) as (m & h' & -> & Hb).
  destruct (builds_registry_lookup _ _ _ Hb)
    as (p & q & Hp & Hq & _ & Hp' & Hq' & -> & _). simpl.
  destruct (decide (strings_ToLower unicode_lower engine = "fzmovies")) as [->|Hk1].
  { rewrite lookup_insert_eq. by intros [= <-]. }
  rewrite lookup_insert_ne by done.
  destruct (decide (strings_ToLower unicode_lower engine = "netnaija")) as [->|Hk2].
  { rewrite lookup_insert_eq. by intros [= <-]. }
  rewrite lookup_insert_ne by done. by rewrite lookup_empty.
Qed.

(** X9. Every call of [GetEngine], whether the name is known or not, builds
    the whole registry: it leaves three more objects in the store than it
    found, and changes none that was there.  Of the engine and the error it
    returns, exactly one is nil; an engine it returns lies at an address
    that was free before the call and holds an adapter of the engine's
    type after it. *)
Theorem GetEngine_builds_registry (engine : string) (h : store) :
  (fst (fst (GetEngine unicode_lower engine h)) = None
   <-> snd (fst (GetEngine unicode_lower engine h)) <> None)
  /\ snd (GetEngine unicode_lower engine h) = snd (GetEngines h)
  /\ size (snd (GetEngine unicode_lower engine h)) = (size h + 3)%nat
  /\ (forall (l : loc) (o : object),
        h !! l = Some o -> snd (GetEngine unicode_lower engine h) !! l = Some o)
  /\ (forall e : engine_ref,
        fst (fst (GetEngine unicode_lower engine h)) = Some e ->
        h !! ptr e = None
        /\ snd (GetEngine unicode_lower engine h) !! ptr e = Some (EngineObj (dyn_type e))).
Proof.
  split_and!.
  - rewrite GetEngine_run, Errorf_does_not_exist.
    by destruct (registry_of h !! _) as [[e|]|].
  - apply GetEngine_store.
  - rewrite GetEngine_store. destruct (GetEngines_run h) as (m & h' & -> & Hb).
    by apply (builds_registry_size _ m).
  - intros l o Hl. rewrite GetEngine_store.
    destruct (GetEngines_run h) as (m & h' & -> & Hb).
    by apply (builds_registry_frame h m).
  - apply GetEngine_Some.
Qed.

(** X10. [GetEngine] hands out a new instance at each call: the engines two
    successive calls return never share an address, also when both calls
    ask for the same name. *)
Theorem GetEngine_no_shared_instance (name1 name2 : string) (h : store)
    (e1 e2 : engine_ref) :
  fst (fst (GetEngine unicode_lower name1 h)) = Some e1 ->
  fst (fst (GetEngine unicode_lower name2 (snd (GetEngine unicode_lower name1 h)))) = Some e2 ->
  ptr e1 <> ptr e2.
Proof.
  intros [_ H1]%GetEngine_Some [H2 _]%GetEngine_Some Heq.
  rewrite Heq in H1. congruence.
Qed.

(** X11. Every entry of the registry [GetEngines] builds has a key made of
    lower-case letters and a non-nil engine.  So [GetEngine], asked for that
    key in any state of the store, returns with a nil error an engine of the
    adapter the registry holds under it. *)
Theorem GetEngines_entries_reachable (h h' : store) (k : string) (e : Engine) :
  registry_of h !! k = Some e ->
  lower_letters k = true
  /\ strings_ToLower unicode_lower k = k
  /\ e <> None
  /\ identity (fst (fst (GetEngine unicode_lower k h'))) = identity e
  /\ snd (fst (GetEngine unicode_lower k h')) = None.
Proof.
  intros He. rewrite GetEngine_run.
  destruct (registry_of_run h) as (p & q & _ & _ & _ & Hreg).
  destruct (registry_of_run h') as (p' & q' & _ & _ & _ & ->).
  rewrite Hreg in He.
  destruct (decide (k = "fzmovies")) as [->|Hk1].
  { rewrite lookup_insert_eq in He. injection He as <-.
    rewrite (casing_ToLower unicode_lower "fzmovies" "fzmovies" (casing_refl _) eq_refl).
    by rewrite lookup_insert_eq. }
  rewrite lookup_insert_ne in He by done.
  destruct (decide (k = "netnaija")) as [->|Hk2].
  { rewrite lookup_insert_eq in He. injection He as <-.
    rewrite (casing_ToLower unicode_lower "netnaija" "netnaija" (casing_refl _) eq_refl).
    rewrite lookup_insert_ne by done. by rewrite lookup_insert_eq. }
  rewrite lookup_insert_ne in He by done. by rewrite lookup_empty in He.
Qed.

End GetEngineStore.

Lemma GetEngine_no_shared_instance_witness :
  ptr (mkEngineRef NetNaijaEngine 1%nat) <> ptr (mkEngineRef NetNaijaEngine 4%nat).
Proof.
  apply (GetEngine_no_shared_instance (fun s => s) "NetNaija" "netnaija" ∅).
  - vm_compute. reflexivity.
  - vm_compute. reflexivity.
Defined.

Lemma GetEngines_entries_reachable_witness :
  identity (fst (fst (GetEngine (fun s => s) "netnaija" ∅))) = Some NetNaijaEngine
  /\ snd (fst (GetEngine (fun s => s) "netnaija" ∅)) = None.
Proof.
  assert (registry_of ∅ !! "netnaija" = Some (Some (mkEngineRef NetNaijaEngine 1%nat)))
    as Hreg by (vm_compute; reflexivity).
  destruct (GetEngines_entries_reachable (fun s => s) ∅ ∅ _ _ Hreg)
    as (_ & _ & _ & Hid & Herr).
  split; [exact Hid|exact Herr].
Defined.
